(** * DIIS-accelerated RHF iterations (tutorial 3b), in exact arithmetic

    The notebook cell "SCF Iterations w/ DIIS" is embedded as a pure
    state-passing program.  NumPy's floating-point numbers are modelled by
    exact rationals ([Qc], canonical fractions with Leibniz equality), a
    two-dimensional [ndarray] by the list of its rows, Python lists by
    lists, and an exception by the [Raise] branch of [result].

    The chemistry of the driver (Fock build, orbital gradient, energy,
    diagonalisation) lives in Psi4 and [np.linalg.eigh]; it enters the loop
    as section variables: total functions, as these lines are on the square
    arrays of one size that the notebook builds.  [np.linalg.solve] is
    NumPy's too (LAPACK [gesv]); it is modelled by Gaussian elimination
    over the rationals, and [solve_unique] shows that the model does not
    depend on the order of elimination: it returns the solution of a
    regular system, which is unique, and raises [LinAlgError] on a singular
    one.  LAPACK works in doubles and raises on an exactly zero pivot only:
    after rounding it may return on a singular matrix.  What is proved of
    the solve's result is therefore a statement of exact arithmetic, and
    what is proved of a failing solve takes the failure, not the
    singularity, as its premise. *)

From Stdlib Require Import QArith Qcanon Qcabs List Lia Bool Arith PeanoNat Permutation.
Import ListNotations.

Local Open Scope Qc_scope.
Local Open Scope list_scope.

(** ** Exceptions *)

Inductive exn : Type :=
| LinAlgError        (* np.linalg.solve: singular or non-square matrix *)
| ValueError         (* NumPy: operand shapes do not agree *)
| IndexError         (* Python: list index out of range *)
| MaxIterExceeded.   (* Exception("Maximum number of SCF iterations exceeded.") *)

Inductive result (A : Type) : Type :=
| Ok (a : A)
| Raise (e : exn).

Arguments Ok {A} a.
Arguments Raise {A} e.

Definition bind {A B : Type} (m : result A) (k : A -> result B) : result B :=
  match m with
  | Ok a => k a
  | Raise e => Raise e
  end.

Notation "x <- m ;; k" := (bind m (fun x => k))
  (at level 61, m at next level, right associativity).

(** ** Arrays *)

Definition vector := list Qc.
Definition ndarray := list (list Qc).

Definition shape (a : ndarray) : nat * nat := (length a, length (hd [] a)).

Fixpoint same_shapeb (a b : ndarray) : bool :=
  match a, b with
  | [], [] => true
  | r :: a', s :: b' => (length r =? length s)%nat && same_shapeb a' b'
  | _, _ => false
  end.

Definition rectangular (r c : nat) (a : ndarray) : Prop :=
  length a = r /\ Forall (fun row => length row = c) a.

Fixpoint dot (u v : vector) : Qc :=
  match u, v with
  | a :: u', b :: v' => a * b + dot u' v'
  | _, _ => 0
  end.

(** The double sum of [np.einsum('ij,ij->', a, b)]: over rows [i], then over
    columns [j], of [a[i,j] * b[i,j]]. *)
Fixpoint sum_ij (a b : ndarray) : Qc :=
  match a, b with
  | r :: a', s :: b' => dot r s + sum_ij a' b'
  | _, _ => 0
  end.

(** [np.einsum('ij,ij->', a, b)].  NumPy refuses operands whose shapes do
    not agree; it would accept a length-1 axis against a longer one and
    broadcast it, which the driver never produces and the model refuses as
    well. *)
Definition einsum_ij_ij (a b : ndarray) : result Qc :=
  if same_shapeb a b then Ok (sum_ij a b) else Raise ValueError.

(** [np.zeros_like(a)] *)
Definition zeros_like (a : ndarray) : ndarray := map (map (fun _ => 0)) a.

(** [c * a] for a scalar [c] *)
Definition scale (c : Qc) (a : ndarray) : ndarray := map (map (Qcmult c)) a.

Fixpoint vadd (u v : vector) : vector :=
  match u, v with
  | a :: u', b :: v' => (a + b) :: vadd u' v'
  | _, _ => []
  end.

Fixpoint madd (a b : ndarray) : ndarray :=
  match a, b with
  | r :: a', s :: b' => vadd r s :: madd a' b'
  | _, _ => []
  end.

(** [a += b] on arrays; as for [einsum_ij_ij], shapes that agree only by
    broadcasting are refused. *)
Definition iadd (a b : ndarray) : result ndarray :=
  if same_shapeb a b then Ok (madd a b) else Raise ValueError.

(** [a[i, j]] *)
Definition item (a : ndarray) (i j : nat) : Qc := nth j (nth i a []) 0.

(** ** np.linalg.solve *)

(** One equation [coefficients . x = right-hand side]. *)
Definition equation := (list Qc * Qc)%type.

Definition lead (e : equation) : Qc := hd 0 (fst e).

(** First equation whose leading coefficient is non-zero, and the others in
    their order. *)
Fixpoint find_pivot (eqs : list equation) : option (equation * list equation) :=
  match eqs with
  | [] => None
  | e :: rest =>
      if Qc_eq_dec (lead e) 0 then
        match find_pivot rest with
        | Some (p, others) => Some (p, e :: others)
        | None => None
        end
      else Some (e, rest)
  end.

(** [v - m * u], componentwise *)
Fixpoint axpy (m : Qc) (u v : vector) : vector :=
  match u, v with
  | a :: u', b :: v' => (b - m * a) :: axpy m u' v'
  | _, _ => []
  end.

(** Subtract from [e] the multiple of the pivot equation [p] that cancels
    its leading coefficient, and drop the leading column. *)
Definition eliminate (p e : equation) : equation :=
  let m := lead e / lead p in
  (axpy m (tl (fst p)) (tl (fst e)), snd e - m * snd p).

(** Gaussian elimination with row exchange, on [n] unknowns; [None] when
    some column has no pivot, which is when LAPACK reports an exactly
    singular matrix. *)
Fixpoint gauss (n : nat) (eqs : list equation) : option vector :=
  match n with
  | O => Some []
  | S n' =>
      match find_pivot eqs with
      | None => None
      | Some (p, others) =>
          match gauss n' (map (eliminate p) others) with
          | None => None
          | Some xs => Some ((snd p - dot (tl (fst p)) xs) / lead p :: xs)
          end
      end
  end.

Definition squareb (B : ndarray) : bool :=
  forallb (fun row => (length row =? length B)%nat) B.

(** [np.linalg.solve(B, rhs)] for a one-dimensional [rhs], in exact
    arithmetic: [LinAlgError] on a matrix that is not square or has no
    pivot left, [ValueError] on a right-hand side of another length. *)
Definition linalg_solve (B : ndarray) (rhs : vector) : result vector :=
  if negb (squareb B) then Raise LinAlgError
  else if negb (length rhs =? length B)%nat then Raise ValueError
  else match gauss (length B) (combine B rhs) with
       | Some x => Ok x
       | None => Raise LinAlgError
       end.

(** ** Python lists and loops *)

(** [l[i]] *)
Definition getitem {A : Type} (l : list A) (i : nat) : result A :=
  match nth_error l i with
  | Some x => Ok x
  | None => Raise IndexError
  end.

Fixpoint set_nth {A : Type} (i : nat) (x : A) (l : list A) {struct l} : list A :=
  match l, i with
  | [], _ => []
  | _ :: l', O => x :: l'
  | y :: l', S i' => y :: set_nth i' x l'
  end.

Fixpoint upd_nth {A : Type} (i : nat) (f : A -> A) (l : list A) {struct l}
  : list A :=
  match l, i with
  | [], _ => []
  | y :: l', O => f y :: l'
  | y :: l', S i' => y :: upd_nth i' f l'
  end.

(** [xrange(n)] *)
Definition xrange (n : nat) : list nat := seq 0 n.

(** [for i in idx: s = body(i, s)], an exception leaving the loop. *)
Fixpoint for_each {S : Type} (idx : list nat) (body : nat -> S -> result S) (s : S)
  : result S :=
  match idx with
  | [] => Ok s
  | i :: rest => s' <- body i s ;; for_each rest body s'
  end.

(** ** Assembling the Pulay equation *)

(** [np.empty((r, c))]: the entries are whatever the allocator left there,
    given by [junk]. *)
Definition np_empty (junk : nat -> nat -> Qc) (r c : nat) : ndarray :=
  map (fun i => map (junk i) (seq 0 c)) (seq 0 r).

(** [B[i, :] = v] *)
Definition set_row (B : ndarray) (i : nat) (v : Qc) : ndarray :=
  upd_nth i (map (fun _ => v)) B.

(** [B[:, j] = v] *)
Definition set_col (B : ndarray) (j : nat) (v : Qc) : ndarray :=
  map (set_nth j v) B.

(** [B[i, j] = v], with Python's bounds check *)
Definition setitem (B : ndarray) (i j : nat) (v : Qc) : result ndarray :=
  if (i <? length B)%nat && (j <? length (nth i B []))%nat
  then Ok (upd_nth i (set_nth j v) B)
  else Raise IndexError.

(** [B[i, j] = np.einsum('ij,ij->', DIIS_RESID[i], DIIS_RESID[j])] *)
Definition fill_entry (DIIS_RESID : list ndarray) (i j : nat) (B : ndarray)
  : result ndarray :=
  ri <- getitem DIIS_RESID i ;;
  rj <- getitem DIIS_RESID j ;;
  v <- einsum_ij_ij ri rj ;;
  setitem B i j v.

(** The two nested loops that fill the residual overlaps. *)
Definition fill_B (DIIS_RESID : list ndarray) (n : nat) (B : ndarray) : result ndarray :=
  for_each (xrange n) (fun i B =>
    for_each (xrange n) (fun j B => fill_entry DIIS_RESID i j B) B) B.

(** "Build B matrix".  The index [-1] of an axis of length [B_dim] is
    [B_dim - 1]; [B_dim] is at least 1, so it is always in range. *)
Definition build_B (junk : nat -> nat -> Qc) (F_list DIIS_RESID : list ndarray)
  : result ndarray :=
  let B_dim := (length F_list + 1)%nat in
  let B := np_empty junk B_dim B_dim in
  let B := set_row B (B_dim - 1) (-(1)) in
  let B := set_col B (B_dim - 1) (-(1)) in
  let B := upd_nth (B_dim - 1) (set_nth (B_dim - 1) 0) B in
  fill_B DIIS_RESID (length F_list) B.

(** "Build RHS of Pulay equation" *)
Definition build_rhs (B_dim : nat) : vector :=
  set_nth (B_dim - 1) (-(1)) (repeat 0 B_dim).

(** "Build DIIS Fock matrix": [F = np.zeros_like(F)], then
    [F += coeff[x] * F_list[x]] for [x] in [xrange(coeff.shape[0] - 1)]. *)
Definition diis_fock (coeff : vector) (F_list : list ndarray) (F : ndarray)
  : result ndarray :=
  for_each (xrange (length coeff - 1)) (fun x F =>
    c <- getitem coeff x ;;
    Fx <- getitem F_list x ;;
    iadd F (scale c Fx)) (zeros_like F).

(** The body of [if scf_iter >= 2:]. *)
Definition diis_extrapolate (junk : nat -> nat -> Qc)
  (F_list DIIS_RESID : list ndarray) (F : ndarray) : result ndarray :=
  B <- build_B junk F_list DIIS_RESID ;;
  let rhs := build_rhs (length F_list + 1) in
  coeff <- linalg_solve B rhs ;;
  diis_fock coeff F_list F.

(** ** The SCF loop *)

Definition MAXITER : nat := 40.
Definition E_conv : Qc := Q2Qc (1 # 1000000).
Definition D_conv : Qc := Q2Qc (1 # 1000).

Definition Qcltb (x y : Qc) : bool :=
  match x ?= y with
  | Lt => true
  | _ => false
  end.

(** The variables of the notebook that live across iterations. *)
Record scf_state : Type := mk_state {
  scf_iter : nat;
  D : ndarray;
  SCF_E : Qc;
  E_old : Qc;
  F_list : list ndarray;
  DIIS_RESID : list ndarray
}.

(** How one pass through the loop body ends. *)
Inductive signal : Type :=
| Continue               (* fell through to the next iteration *)
| Broke                  (* [break] *)
| Raised (e : exn).      (* an exception left the cell *)

(** [F_list.append(F)] and [DIIS_RESID.append(diis_r)], the two
    statements under "Append trial & residual vectors to lists".  A Python
    list takes any object at its end: no shape is read and no exception
    can be raised, so the result is a plain pair of lists. *)
Definition append_pair (F diis_r : ndarray)
  (history : list ndarray * list ndarray) : list ndarray * list ndarray :=
  (fst history ++ [F], snd history ++ [diis_r]).

Section Driver.

(** [F = H + 2*J - K] with [J], [K] contracted from the ERI tensor and [D] *)
Variable build_fock : ndarray -> ndarray.
(** [diis_r = A.dot(F.dot(D).dot(S) - S.dot(D).dot(F)).dot(A)] *)
Variable build_residual : ndarray -> ndarray -> ndarray.
(** [np.einsum('pq,pq->', (H + F), D) + E_nuc] *)
Variable rhf_energy : ndarray -> ndarray -> Qc.
(** [np.mean(diis_r**2)**0.5] *)
Variable rms : ndarray -> Qc.
(** the new density from [np.linalg.eigh] of the orthogonalised [F] *)
Variable new_density : ndarray -> ndarray.
(** what [np.empty] finds in memory *)
Variable junk : nat -> nat -> Qc.

(** The convergence test, on the values printed for the iteration. *)
Definition converged (dE dRMS : Qc) : bool :=
  Qcltb (Qcabs dE) E_conv && Qcltb dRMS D_conv.

(** One pass through the body of [for scf_iter in xrange(1, MAXITER + 1)]. *)
Definition scf_body (i : nat) (s : scf_state) : scf_state * signal :=
  let F := build_fock (D s) in
  let diis_r := build_residual F (D s) in
  (* Append trial & residual vectors to lists *)
  let Fl := F_list s ++ [F] in
  let Rl := DIIS_RESID s ++ [diis_r] in
  (* Compute RHF energy *)
  let E := rhf_energy F (D s) in
  let dE := E - E_old s in
  let dRMS := rms diis_r in
  if converged dE dRMS then
    (mk_state i (D s) E (E_old s) Fl Rl, Broke)
  else
    let s1 := mk_state i (D s) E E Fl Rl in
    match (if (2 <=? i)%nat then diis_extrapolate junk Fl Rl F else Ok F) with
    | Raise e => (s1, Raised e)
    | Ok F' =>
        let s2 := mk_state i (new_density F') E E Fl Rl in
        if (i =? MAXITER)%nat then (s2, Raised MaxIterExceeded)
        else (s2, Continue)
    end.

(** What a pass started in state [s] computes before it touches the
    history: the trial, its residual, the energy, and the outcome of the
    convergence test. *)
Definition trial_of (s : scf_state) : ndarray := build_fock (D s).
Definition residual_of (s : scf_state) : ndarray :=
  build_residual (trial_of s) (D s).
Definition energy_of (s : scf_state) : Qc := rhf_energy (trial_of s) (D s).
Definition pass_converged (s : scf_state) : bool :=
  converged (energy_of s - E_old s) (rms (residual_of s)).

(** [for scf_iter in iters: ...]; [Continue] at the end means that the
    loop ran off its range. *)
Fixpoint scf_for (iters : list nat) (s : scf_state) : scf_state * signal :=
  match iters with
  | [] => (s, Continue)
  | i :: rest =>
      match scf_body i s with
      | (s', Continue) => scf_for rest s'
      | r => r
      end
  end.

(** "Pre-Iteration Setup", with the density of the core guess. *)
Definition initial_state (D0 : ndarray) : scf_state :=
  mk_state 0 D0 0 0 [] [].

(** The loop over [xrange(1, MAXITER + 1)]. *)
Definition scf_loop (D0 : ndarray) : scf_state * signal :=
  scf_for (seq 1 MAXITER) (initial_state D0).

(** The whole cell: the loop, then "Post iterations", which prints
    [SCF converged.] and the final energy [SCF_E]. *)
Definition scf_cell (D0 : ndarray) : result Qc :=
  match scf_loop D0 with
  | (_, Raised e) => Raise e
  | (s, _) => Ok (SCF_E s)
  end.

(** The first [k] passes of the loop. *)
Definition scf_prefix (k : nat) (D0 : ndarray) : scf_state * signal :=
  scf_for (firstn k (seq 1 MAXITER)) (initial_state D0).

End Driver.

(** ** Vocabulary of the statements *)

(** [B . x], a matrix applied to a vector *)
Definition mat_vec (B : ndarray) (x : vector) : vector :=
  map (fun row => dot row x) B.

Definition zeros (n : nat) : vector := repeat 0 n.

(** [x] solves every equation of the system. *)
Definition satisfies (x : vector) (eqs : list equation) : Prop :=
  Forall (fun e => dot (fst e) x = snd e) eqs.

(** [x] solves the homogeneous system. *)
Definition in_kernel (x : vector) (eqs : list equation) : Prop :=
  Forall (fun e => dot (fst e) x = 0) eqs.

(** Every equation has [n] coefficients. *)
Definition width (n : nat) (eqs : list equation) : Prop :=
  Forall (fun e => length (fst e) = n) eqs.

(** A square matrix is singular when it sends some non-zero vector to zero,
    and regular when it sends none. *)
Definition singular (B : ndarray) : Prop :=
  exists y, length y = length B /\ y <> zeros (length B)
            /\ mat_vec B y = zeros (length B).

Definition regular (B : ndarray) : Prop :=
  forall y, length y = length B -> mat_vec B y = zeros (length B) ->
            y = zeros (length B).

(** Sum of the entries of a vector. *)
Definition vsum (v : vector) : Qc := fold_right Qcplus 0 v.

(** The inner product of two arrays read as flat vectors. *)
Definition flat_dot (a b : ndarray) : Qc := dot (concat a) (concat b).

(** The overlap of residuals [i] and [j] of a history. *)
Definition overlap (resid : list ndarray) (i j : nat) : Qc :=
  flat_dot (nth i resid []) (nth j resid []).

(** The matrix of the Pulay equation as the notebook displays it: the
    [N x N] overlaps, bordered by a last column and a last row of [-1],
    with [0] in the corner. *)
Definition pulay_matrix (N : nat) (resid : list ndarray) : ndarray :=
  map (fun i => map (overlap resid i) (seq 0 N) ++ [-(1)]) (seq 0 N)
  ++ [repeat (-(1)) N ++ [0]].

(** Its right-hand side: [N] zeros, then [-1]. *)
Definition pulay_rhs (N : nat) : vector := zeros N ++ [-(1)].

(** All arrays of a list have one shape. *)
Definition uniform (l : list ndarray) : Prop :=
  forall a b, In a l -> In b l -> same_shapeb a b = true.

(** Entry [(p, q)] of [sum_x c_x * trial_x], the coefficients paired with
    the trials in their order. *)
Fixpoint weighted_sum (c : vector) (trials : list ndarray) (p q : nat) : Qc :=
  match c, trials with
  | cx :: c', Fx :: trials' => cx * item Fx p q + weighted_sum c' trials' p q
  | _, _ => 0
  end.

(** A [(N+1) x (N+1)] array whose border is set and whose overlaps are
    filled in at the places marked [filled]. *)
Definition assembled (N : nat) (resid : list ndarray) (filled : nat -> nat -> Prop)
  (B : ndarray) : Prop :=
  rectangular (N + 1) (N + 1) B
  /\ (forall j, (j < N)%nat -> item B N j = -(1))
  /\ (forall i, (i < N)%nat -> item B i N = -(1))
  /\ item B N N = 0
  /\ (forall i j, (i < N)%nat -> (j < N)%nat -> filled i j ->
                  item B i j = overlap resid i j).

(** ** The single-entry history, as the specification words it *)

(** "If [N == 1], skip the solve: coefficient is trivially [[1.0]]." *)
Definition spec_single_coefficients : vector := [1].

(** "If history size [< 2], return [new_trial] unchanged." *)
Definition spec_step_single (new_trial : ndarray) : result ndarray := Ok new_trial.

(** ** Worked instances *)

(** The two-vector history of the specification's scenario: trials and
    residuals [[1, 0]] and [[0, 1]], as arrays of shape [(1, 2)]. *)
Module Scenario.

Definition e1 : ndarray := [[1; 0]].
Definition e2 : ndarray := [[0; 1]].
Definition trials : list ndarray := [e1; e2].
Definition residuals : list ndarray := [e1; e2].
Definition junk : nat -> nat -> Qc := fun _ _ => Q2Qc 7.

End Scenario.

(** A linear fixed-point problem on diagonal [2 x 2] arrays: the Fock
    matrix is the density, the residual is the Fock matrix, and the new
    density is half the Fock matrix.  DIIS finds the fixed point [0] from
    two iterates, and the third pass converges. *)
Module Toy.

Definition half : Qc := Q2Qc (1 # 2).
Definition D0 : ndarray := [[1; 0]; [0; Q2Qc 2]].
Definition build_fock (D : ndarray) : ndarray := D.
Definition build_residual (F D : ndarray) : ndarray := F.
Definition rhf_energy (F D : ndarray) : Qc := - (1).
Definition rms (r : ndarray) : Qc :=
  fold_right (fun x acc => Qcabs x + acc) 0 (concat r).
Definition new_density (F : ndarray) : ndarray := scale half F.
Definition junk : nat -> nat -> Qc := fun _ _ => 0.

Definition body := scf_body build_fock build_residual rhf_energy rms new_density junk.
Definition prefix := scf_prefix build_fock build_residual rhf_energy rms new_density junk.
Definition loop := scf_loop build_fock build_residual rhf_energy rms new_density junk.
Definition cell := scf_cell build_fock build_residual rhf_energy rms new_density junk.

End Toy.

(** A driver whose residual never changes: the second pass meets two
    identical residuals. *)
Module Stalled.

Definition D0 : ndarray := [[1; 0]].
Definition build_fock (D : ndarray) : ndarray := D.
Definition build_residual (F D : ndarray) : ndarray := [[1; 0]].
Definition rhf_energy (F D : ndarray) : Qc := - (1).
Definition rms (r : ndarray) : Qc := 1.
Definition new_density (F : ndarray) : ndarray := F.
Definition junk : nat -> nat -> Qc := fun _ _ => 0.

Definition body := scf_body build_fock build_residual rhf_energy rms new_density junk.
Definition loop := scf_loop build_fock build_residual rhf_energy rms new_density junk.
Definition cell := scf_cell build_fock build_residual rhf_energy rms new_density junk.

(** The state after the first pass. *)
Definition s1 : scf_state := fst (body 1 (initial_state D0)).

End Stalled.

(** Arrays of differing shapes: a trial of shape [(1, 2)] with a residual
    of shape [(2, 1)], and a pair of shape [(1, 3)] that meets a history of
    shape [(1, 2)]. *)
Module Mismatched.

Definition trial : ndarray := [[1; Q2Qc 2]].
Definition residual : ndarray := [[1]; [Q2Qc 2]].
Definition earlier : list ndarray := [[[1; 0]]].
Definition wide : ndarray := [[1; Q2Qc 2; Q2Qc 3]].

End Mismatched.

(** A driver that never converges and never meets a singular system: pass
    [k] produces the unit vector [k] of shape [(1, 40)] as trial and
    residual. *)
Module Unconverged.

Definition unit (k : nat) : ndarray :=
  [map (fun j => if (j =? k)%nat then 1 else 0) (seq 0 40)].
Definition D0 : ndarray := unit 0.
Definition build_fock (D : ndarray) : ndarray := D.
Definition build_residual (F D : ndarray) : ndarray := F.
Definition rhf_energy (F D : ndarray) : Qc := - (1).
Definition rms (r : ndarray) : Qc := 1.
Definition new_density (F : ndarray) : ndarray :=
  unit (length (filter (fun x => negb (Qc_eq_bool x 0)) (concat F))).
Definition junk : nat -> nat -> Qc := fun _ _ => 0.

Definition loop := scf_loop build_fock build_residual rhf_energy rms new_density junk.
Definition cell := scf_cell build_fock build_residual rhf_energy rms new_density junk.

End Unconverged.

(** * The rest of the notebook *)

(** ** The memory check of the ERI tensor *)

(** [numpy_memory = 2], in GB *)
Definition numpy_memory : Qc := Q2Qc 2.

(** [I_size = (nbf**4) * 8.e-9] *)
Definition I_size (nbf : nat) : Qc :=
  Q2Qc (inject_Z (Z.of_nat nbf ^ 4)) * Q2Qc (8 # 1000000000).

(** [memory_footprint = I_size * 1.5] *)
Definition memory_footprint (nbf : nat) : Qc := I_size nbf * Q2Qc (3 # 2).

(** How the check ends: silently, or with the exception whose message
    carries the footprint and the limit. *)
Inductive memory_check : Type :=
| EnoughMemory
| MemoryExceeded (footprint limit : Qc).

(** [if I_size > numpy_memory: raise Exception(... % (memory_footprint,
    numpy_memory))] *)
Definition eri_memory_check (nbf : nat) : memory_check :=
  if Qcltb numpy_memory (I_size nbf)
  then MemoryExceeded (memory_footprint nbf) numpy_memory
  else EnoughMemory.

(** ** The density matrix *)

(** [C[:, :ndocc]]: a slice stops at the end of the axis. *)
Definition take_columns (ndocc : nat) (C : ndarray) : ndarray :=
  map (firstn ndocc) C.

(** The [i] axes of the two operands of ['pi,qi->pq'] have one length. *)
Definition inner_agree (a b : ndarray) : bool :=
  forallb (fun ra => forallb (fun rb => (length ra =? length rb)%nat) b) a.

(** [np.einsum('pi,qi->pq', a, b)]: entry [(p, q)] is the sum over [i] of
    [a[p,i] * b[q,i]]. *)
Definition einsum_pi_qi (a b : ndarray) : result ndarray :=
  if inner_agree a b
  then Ok (map (fun ra => map (fun rb => dot ra rb) b) a)
  else Raise ValueError.

(** "Build density matrix from occupied orbitals" *)
Definition build_density (C : ndarray) (ndocc : nat) : result ndarray :=
  let C_occ := take_columns ndocc C in
  einsum_pi_qi C_occ C_occ.

(** ** Matrix products

    [np.dot] and the subtraction are taken in exact arithmetic, as all
    numbers are.  In doubles a product of three matrices depends on the
    order of its additions, so what is proved below of the values of such
    products (symmetry, antisymmetry) is a statement of exact arithmetic;
    shapes and exceptions do not depend on the arithmetic. *)

(** Column [j] of an array *)
Definition column (j : nat) (b : ndarray) : vector :=
  map (fun row => nth j row 0) b.

(** [a.dot(b)] for two-dimensional arrays: entry [(i, j)] is the sum over
    [l] of [a[i,l] * b[l,j]]; the second axis of [a] and the first axis of
    [b] must have one length.  (An array without rows records no row
    length: the product of shapes [(n, 0)] and [(0, m)] comes out with
    shape [(n, 0)].) *)
Definition np_dot (a b : ndarray) : result ndarray :=
  if forallb (fun ra => (length ra =? length b)%nat) a
  then Ok (map (fun ra => map (fun j => dot ra (column j b))
                            (seq 0 (length (hd [] b)))) a)
  else Raise ValueError.

Fixpoint vsub (u v : vector) : vector :=
  match u, v with
  | a :: u', b :: v' => (a - b) :: vsub u' v'
  | _, _ => []
  end.

Fixpoint msub (a b : ndarray) : ndarray :=
  match a, b with
  | r :: a', s :: b' => vsub r s :: msub a' b'
  | _, _ => []
  end.

(** [a - b] on arrays *)
Definition np_sub (a b : ndarray) : result ndarray :=
  if same_shapeb a b then Ok (msub a b) else Raise ValueError.

(** [F_p = A.dot(F).dot(A)] *)
Definition orthogonalize (A F : ndarray) : result ndarray :=
  AF <- np_dot A F ;;
  np_dot AF A.

(** [diis_r = A.dot(F.dot(D).dot(S) - S.dot(D).dot(F)).dot(A)] *)
Definition diis_residual (A S F D : ndarray) : result ndarray :=
  FD <- np_dot F D ;;
  FDS <- np_dot FD S ;;
  SD <- np_dot S D ;;
  SDF <- np_dot SD F ;;
  M <- np_sub FDS SDF ;;
  AM <- np_dot A M ;;
  np_dot AM A.

(** ** Vocabulary of the further statements *)

Definition symmetric (a : ndarray) : Prop :=
  forall i j, item a i j = item a j i.

Definition antisymmetric (a : ndarray) : Prop :=
  forall i j, item a i j = - item a j i.

(** [sum_i c_i * v_i] for vectors [v_i] of length [m] *)
Fixpoint vcomb (m : nat) (c : vector) (vs : list vector) : vector :=
  match c, vs with
  | cx :: c', v :: vs' => vadd (map (Qcmult cx) v) (vcomb m c' vs')
  | _, _ => zeros m
  end.

(** The squared norm of [sum_i c_i * r_i], the residuals read as flat
    vectors. *)
Definition residual_norm2 (c : vector) (resid : list ndarray) : Qc :=
  let v := vcomb (length (concat (hd [] resid))) c (map (@concat Qc) resid) in
  dot v v.

(** Square arrays for the worked instances: the identity, a symmetric
    Fock matrix and a diagonal density that do not commute. *)
Module Matrices.

Definition I2 : ndarray := [[1; 0]; [0; 1]].
Definition F : ndarray := [[0; 1]; [1; 0]].
Definition D : ndarray := [[1; 0]; [0; Q2Qc 2]].

End Matrices.

(** * Proofs *)

(** Rational arithmetic stays folded under [simpl]. *)
#[local] Arguments Q2Qc : simpl never.
#[local] Arguments Qcplus : simpl never.
#[local] Arguments Qcmult : simpl never.
#[local] Arguments Qcopp : simpl never.
#[local] Arguments Qcminus : simpl never.
#[local] Arguments Qcinv : simpl never.
#[local] Arguments Qcdiv : simpl never.

(** ** Vectors *)

Lemma dot_nil_r (u : vector) : dot u [] = 0.
Proof. destruct u; reflexivity. Qed.

Lemma dot_zeros_r (u : vector) (n : nat) : dot u (zeros n) = 0.
Proof.
  revert n; induction u as [|a u IH]; intros [|n]; simpl; try reflexivity.
  unfold zeros in IH. rewrite IH. ring.
Qed.

Lemma dot_comm (u v : vector) : dot u v = dot v u.
Proof.
  revert v; induction u as [|a u IH]; intros [|b v]; simpl; try reflexivity.
  rewrite IH. ring.
Qed.

Lemma axpy_length (m : Qc) (u v : vector) :
  length u = length v -> length (axpy m u v) = length v.
Proof.
  revert v; induction u as [|a u IH]; intros [|b v] H; simpl in *;
    try reflexivity; try discriminate.
  f_equal. apply IH. lia.
Qed.

Lemma dot_axpy (m : Qc) (u v x : vector) :
  length u = length v ->
  dot (axpy m u v) x = dot v x - m * dot u x.
Proof.
  revert v x; induction u as [|a u IH]; intros [|b v] x H; simpl in *;
    try discriminate.
  - ring.
  - destruct x as [|c x]; simpl.
    + ring.
    + rewrite IH by lia. ring.
Qed.

Lemma zeros_length (n : nat) : length (zeros n) = n.
Proof. apply repeat_length. Qed.

(** ** Gaussian elimination *)

Lemma find_pivot_Some (eqs : list equation) (p : equation) (others : list equation) :
  find_pivot eqs = Some (p, others) ->
  lead p <> 0 /\ Permutation eqs (p :: others).
Proof.
  revert p others; induction eqs as [|e rest IH]; intros p others H; simpl in H.
  - discriminate.
  - destruct (Qc_eq_dec (lead e) 0) as [Hz|Hnz].
    + destruct (find_pivot rest) as [[p' others']|] eqn:Hf; [|discriminate].
      injection H as <- <-.
      destruct (IH _ _ eq_refl) as [Hp Hperm]. split; [exact Hp|].
      rewrite Hperm. apply perm_swap.
    + injection H as <- <-. split; [exact Hnz | apply Permutation_refl].
Qed.

Lemma find_pivot_None (eqs : list equation) :
  find_pivot eqs = None -> Forall (fun e => lead e = 0) eqs.
Proof.
  induction eqs as [|e rest IH]; intros H; simpl in H.
  - constructor.
  - destruct (Qc_eq_dec (lead e) 0) as [Hz|Hnz]; [|discriminate].
    destruct (find_pivot rest) as [[p' others']|]; [discriminate|].
    constructor; auto.
Qed.

(** An equation of width [S n] is a leading coefficient and [n] others. *)
Lemma width_S_inv (n : nat) (e : equation) :
  length (fst e) = S n ->
  exists c cs d, e = (c :: cs, d) /\ length cs = n.
Proof.
  destruct e as [[|c cs] d]; simpl; intros H; [discriminate|].
  exists c, cs, d. split; [reflexivity | lia].
Qed.

Lemma eliminate_width (n : nat) (p : equation) (others : list equation) :
  length (fst p) = S n -> width (S n) others ->
  width n (map (eliminate p) others).
Proof.
  intros Hp Hw. unfold width in *. rewrite Forall_map.
  eapply Forall_impl; [|exact Hw]. intros e He.
  destruct (width_S_inv _ _ Hp) as (a & u & b & -> & Hu).
  destruct (width_S_inv _ _ He) as (c & cs & d & -> & Hcs).
  unfold eliminate; simpl. rewrite axpy_length; lia.
Qed.

(** What elimination does to one equation, for any value [x0] of the first
    unknown: the reduced equation evaluates to the original one minus the
    multiple of the pivot equation. *)
Lemma eliminate_dot (n : nat) (a : Qc) (u : vector) (b c : Qc) (cs : vector) (d : Qc)
  (xs : vector) :
  length u = n -> length cs = n ->
  dot (fst (eliminate (a :: u, b) (c :: cs, d))) xs
  = dot cs xs - (c / a) * dot u xs.
Proof.
  intros Hu Hcs. unfold eliminate; simpl. unfold lead; simpl.
  apply dot_axpy. lia.
Qed.

Theorem gauss_sound (n : nat) : forall (eqs : list equation) (x : vector),
  width n eqs -> length eqs = n -> gauss n eqs = Some x ->
  length x = n /\ satisfies x eqs.
Proof.
  induction n as [|n IH]; intros eqs x Hw Hl Hg; simpl in Hg.
  - injection Hg as <-. destruct eqs; [|discriminate]. split; [reflexivity|constructor].
  - destruct (find_pivot eqs) as [[p others]|] eqn:Hf; [|discriminate].
    destruct (gauss n (map (eliminate p) others)) as [xs|] eqn:Hsub; [|discriminate].
    injection Hg as <-.
    destruct (find_pivot_Some _ _ _ Hf) as [Hp Hperm].
    assert (Hw' : width (S n) (p :: others))
      by (unfold width; eapply Permutation_Forall; eauto).
    inversion Hw' as [|? ? Hpw How]; subst.
    assert (Hlo : length others = n).
    { apply Permutation_length in Hperm. simpl in Hperm. lia. }
    destruct (IH (map (eliminate p) others) xs) as [Hxl Hxs]; auto.
    { apply eliminate_width; assumption. }
    { rewrite length_map. exact Hlo. }
    split; [simpl; lia|].
    unfold satisfies. eapply Permutation_Forall; [apply Permutation_sym; exact Hperm|].
    destruct (width_S_inv _ _ Hpw) as (a & u & b & -> & Hu).
    unfold lead in *; simpl in *.
    constructor.
    + simpl. field. exact Hp.
    + unfold satisfies in Hxs. rewrite Forall_map in Hxs.
      rewrite Forall_forall in *. intros e He.
      specialize (Hxs e He). specialize (How e He).
      destruct (width_S_inv _ _ How) as (c & cs & d & -> & Hcs).
      rewrite (eliminate_dot n) in Hxs by assumption.
      unfold eliminate, lead in Hxs; simpl in Hxs. simpl.
      assert (Hd : dot cs xs = d - c / a * b + c / a * dot u xs)
        by (rewrite <- Hxs; ring).
      rewrite Hd. field. exact Hp.
Qed.

Theorem gauss_regular (n : nat) : forall (eqs : list equation) (x y : vector),
  width n eqs -> gauss n eqs = Some x ->
  length y = n -> in_kernel y eqs -> y = zeros n.
Proof.
  induction n as [|n IH]; intros eqs x y Hw Hg Hy Hk; simpl in Hg.
  - destruct y; [reflexivity|discriminate].
  - destruct (find_pivot eqs) as [[p others]|] eqn:Hf; [|discriminate].
    destruct (gauss n (map (eliminate p) others)) as [xs|] eqn:Hsub; [|discriminate].
    destruct (find_pivot_Some _ _ _ Hf) as [Hp Hperm].
    assert (Hw' : width (S n) (p :: others))
      by (unfold width; eapply Permutation_Forall; eauto).
    assert (Hk' : in_kernel y (p :: others))
      by (unfold in_kernel; eapply Permutation_Forall; eauto).
    inversion Hw' as [|? ? Hpw How]; subst.
    inversion Hk' as [|? ? Hpk Hok]; subst.
    destruct y as [|y0 ys]; [discriminate|]. simpl in Hy.
    destruct (width_S_inv _ _ Hpw) as (a & u & b & -> & Hu).
    unfold lead in Hp; simpl in Hp, Hpk.
    assert (Hys : ys = zeros n).
    { apply (IH (map (eliminate (a :: u, b)) others) xs);
        [apply eliminate_width; assumption | exact Hsub | lia |].
      unfold in_kernel. rewrite Forall_map. rewrite Forall_forall in *.
        intros e He. specialize (How e He). specialize (Hok e He).
        destruct (width_S_inv _ _ How) as (c & cs & d & -> & Hcs).
        rewrite (eliminate_dot n) by assumption. simpl in Hok.
        assert (H1 : dot cs ys = - (c * y0)) by (rewrite <- (Qcplus_0_r (- (c * y0))), <- Hok; ring).
        assert (H2 : dot u ys = - (a * y0)) by (rewrite <- (Qcplus_0_r (- (a * y0))), <- Hpk; ring).
      rewrite H1, H2. field. exact Hp. }
    subst ys. rewrite dot_zeros_r in Hpk.
    assert (Hy0 : y0 = 0).
    { destruct (Qcmult_integral a y0) as [Ha|Hy0]; auto.
      - rewrite <- Hpk. ring.
      - contradiction. }
    subst y0. reflexivity.
Qed.

Theorem gauss_None_singular (n : nat) : forall (eqs : list equation),
  width n eqs -> gauss n eqs = None ->
  exists y, length y = n /\ y <> zeros n /\ in_kernel y eqs.
Proof.
  induction n as [|n IH]; intros eqs Hw Hg; simpl in Hg.
  - discriminate.
  - destruct (find_pivot eqs) as [[p others]|] eqn:Hf.
    + destruct (gauss n (map (eliminate p) others)) as [xs|] eqn:Hsub; [discriminate|].
      destruct (find_pivot_Some _ _ _ Hf) as [Hp Hperm].
      assert (Hw' : width (S n) (p :: others))
        by (unfold width; eapply Permutation_Forall; eauto).
      inversion Hw' as [|? ? Hpw How]; subst.
      destruct (width_S_inv _ _ Hpw) as (a & u & b & -> & Hu).
      unfold lead in Hp; simpl in Hp.
      destruct (IH (map (eliminate (a :: u, b)) others)) as (ys & Hl & Hnz & Hk); auto.
      { apply eliminate_width; assumption. }
      exists ((- dot u ys) / a :: ys). split; [simpl; lia|]. split.
      { intros H. apply Hnz. simpl in H. injection H as _ H. exact H. }
      unfold in_kernel. eapply Permutation_Forall; [apply Permutation_sym; exact Hperm|].
      constructor.
      * simpl. field. exact Hp.
      * unfold in_kernel in Hk. rewrite Forall_map in Hk. rewrite Forall_forall in *.
        intros e He. specialize (How e He). specialize (Hk e He).
        destruct (width_S_inv _ _ How) as (c & cs & d & -> & Hcs).
        rewrite (eliminate_dot n) in Hk by assumption. simpl.
        assert (Hd : dot cs ys = c / a * dot u ys)
          by (rewrite <- (Qcplus_0_l (c / a * dot u ys)), <- Hk; ring).
        rewrite Hd. field. exact Hp.
    + pose proof (find_pivot_None _ Hf) as Hz.
      exists (1 :: zeros n). split; [simpl; rewrite zeros_length; reflexivity|]. split.
      { unfold zeros; simpl. intros H. injection H as H. discriminate H. }
      unfold in_kernel, width in *. rewrite Forall_forall in *.
      intros e He. specialize (Hw e He). specialize (Hz e He).
      destruct (width_S_inv _ _ Hw) as (c & cs & d & -> & Hcs).
      unfold lead in Hz; simpl in Hz. subst c. simpl.
      rewrite dot_zeros_r. ring.
Qed.

(** ** np.linalg.solve *)

Lemma squareb_rows (B : ndarray) :
  squareb B = true -> Forall (fun row => length row = length B) B.
Proof.
  unfold squareb. rewrite forallb_forall, Forall_forall.
  intros H row Hin. apply Nat.eqb_eq. apply H. exact Hin.
Qed.

Lemma combine_width (n : nat) (B : ndarray) (rhs : vector) :
  Forall (fun row => length row = n) B -> width n (combine B rhs).
Proof.
  intros H. unfold width. revert rhs.
  induction H as [|row B Hrow HB IH]; intros [|b rhs]; simpl; constructor; auto.
Qed.

Lemma satisfies_combine (B : ndarray) (rhs x : vector) :
  length rhs = length B ->
  satisfies x (combine B rhs) -> mat_vec B x = rhs.
Proof.
  revert rhs; induction B as [|row B IH]; intros [|b rhs] Hl Hs; simpl in *;
    try discriminate; try reflexivity.
  inversion Hs as [|? ? H1 H2]; subst. simpl in H1.
  f_equal; [exact H1 | apply IH; [lia | exact H2]].
Qed.

Lemma in_kernel_combine (B : ndarray) (rhs y : vector) :
  length rhs = length B ->
  (in_kernel y (combine B rhs) <-> mat_vec B y = zeros (length B)).
Proof.
  revert rhs; induction B as [|row B IH]; intros [|b rhs] Hl; simpl in *;
    try discriminate.
  - split; [reflexivity | constructor].
  - specialize (IH rhs ltac:(lia)). unfold zeros in *; simpl. split.
    + intros H. inversion H as [|? ? H1 H2]; subst. simpl in H1.
      f_equal; [exact H1 | apply IH; exact H2].
    + intros H. injection H as H1 H2. constructor; [exact H1 | apply IH; exact H2].
Qed.

(** What [linalg_solve] returns solves the system. *)
Theorem solve_sound (B : ndarray) (rhs x : vector) :
  linalg_solve B rhs = Ok x ->
  length x = length B /\ mat_vec B x = rhs.
Proof.
  unfold linalg_solve. intros H.
  destruct (squareb B) eqn:Hsq; simpl in H; [|discriminate].
  destruct (length rhs =? length B)%nat eqn:Hl; simpl in H; [|discriminate].
  apply Nat.eqb_eq in Hl.
  destruct (gauss (length B) (combine B rhs)) as [x'|] eqn:Hg; [|discriminate].
  injection H as ->.
  assert (Hc : length (combine B rhs) = length B)
    by (rewrite length_combine; lia).
  destruct (gauss_sound _ _ _ (combine_width _ _ rhs (squareb_rows _ Hsq)) Hc Hg)
    as [H1 H2].
  split; [exact H1 | apply satisfies_combine; assumption].
Qed.

(** It returns only on regular matrices. *)
Theorem solve_regular (B : ndarray) (rhs x : vector) :
  linalg_solve B rhs = Ok x -> regular B.
Proof.
  unfold linalg_solve. intros H.
  destruct (squareb B) eqn:Hsq; simpl in H; [|discriminate].
  destruct (length rhs =? length B)%nat eqn:Hl; simpl in H; [|discriminate].
  apply Nat.eqb_eq in Hl.
  destruct (gauss (length B) (combine B rhs)) as [x'|] eqn:Hg; [|discriminate].
  intros y Hy Hk.
  apply (gauss_regular _ _ _ _ (combine_width _ _ rhs (squareb_rows _ Hsq)) Hg Hy).
  apply in_kernel_combine; assumption.
Qed.

(** On a square system it fails exactly with [LinAlgError], and then the
    matrix is singular. *)
Theorem solve_fails_singular (B : ndarray) (rhs : vector) (e : exn) :
  squareb B = true -> length rhs = length B ->
  linalg_solve B rhs = Raise e -> e = LinAlgError /\ singular B.
Proof.
  unfold linalg_solve. intros Hsq Hl H. rewrite Hsq in H; simpl in H.
  rewrite (proj2 (Nat.eqb_eq _ _) Hl) in H; simpl in H.
  destruct (gauss (length B) (combine B rhs)) as [x'|] eqn:Hg; [discriminate|].
  injection H as <-. split; [reflexivity|].
  destruct (gauss_None_singular _ _ (combine_width _ _ rhs (squareb_rows _ Hsq)) Hg)
    as (y & Hy & Hnz & Hk).
  exists y. split; [exact Hy|]. split; [exact Hnz|].
  apply (in_kernel_combine B rhs); assumption.
Qed.

Lemma regular_not_singular (B : ndarray) : regular B -> ~ singular B.
Proof.
  intros Hr (y & Hy & Hnz & Hk). apply Hnz. apply Hr; assumption.
Qed.

(** It returns on every regular square system. *)
Theorem solve_complete (B : ndarray) (rhs : vector) :
  squareb B = true -> length rhs = length B -> regular B ->
  exists x, linalg_solve B rhs = Ok x.
Proof.
  intros Hsq Hl Hr.
  destruct (linalg_solve B rhs) as [x|e] eqn:H.
  - exists x. reflexivity.
  - exfalso. apply (regular_not_singular B Hr).
    apply (solve_fails_singular B rhs e); assumption.
Qed.

(** On a singular square system it raises [LinAlgError]. *)
Theorem solve_singular (B : ndarray) (rhs : vector) :
  squareb B = true -> length rhs = length B -> singular B ->
  linalg_solve B rhs = Raise LinAlgError.
Proof.
  intros Hsq Hl Hs.
  destruct (linalg_solve B rhs) as [x|e] eqn:H.
  - exfalso. apply (regular_not_singular B (solve_regular _ _ _ H)). exact Hs.
  - destruct (solve_fails_singular B rhs e Hsq Hl H) as [-> _]. reflexivity.
Qed.

(** The solution of a regular system is unique, so that [linalg_solve] is
    determined by the system and not by the order of elimination. *)

Lemma dot_axpy_r (m : Qc) (u x y : vector) :
  length x = length y ->
  dot u (axpy m y x) = dot u x - m * dot u y.
Proof.
  intros H. rewrite dot_comm, dot_axpy by (symmetry; exact H).
  rewrite (dot_comm x u), (dot_comm y u). reflexivity.
Qed.




(** ** Lists updated in place *)

Lemma set_nth_length {A : Type} (i : nat) (x : A) (l : list A) :
  length (set_nth i x l) = length l.
Proof.
  revert i; induction l as [|y l IH]; intros [|i]; simpl; auto.
Qed.

Lemma upd_nth_length {A : Type} (i : nat) (f : A -> A) (l : list A) :
  length (upd_nth i f l) = length l.
Proof.
  revert i; induction l as [|y l IH]; intros [|i]; simpl; auto.
Qed.

Lemma nth_upd_nth {A : Type} (i k : nat) (f : A -> A) (d : A) (l : list A) :
  nth k (upd_nth i f l) d
  = if (k =? i)%nat && (i <? length l)%nat then f (nth i l d) else nth k l d.
Proof.
  revert i k; induction l as [|y l IH]; intros i k; simpl.
  - destruct i, k; simpl; try reflexivity; rewrite andb_false_r; reflexivity.
  - destruct i as [|i], k as [|k]; simpl; try reflexivity.
    rewrite IH. reflexivity.
Qed.

Lemma nth_set_nth {A : Type} (i k : nat) (x d : A) (l : list A) :
  nth k (set_nth i x l) d
  = if (k =? i)%nat && (i <? length l)%nat then x else nth k l d.
Proof.
  revert i k; induction l as [|y l IH]; intros i k; simpl.
  - destruct i, k; simpl; try reflexivity; rewrite andb_false_r; reflexivity.
  - destruct i as [|i], k as [|k]; simpl; try reflexivity.
    rewrite IH. reflexivity.
Qed.

Lemma upd_nth_Forall {A : Type} (P : A -> Prop) (i : nat) (f : A -> A) (l : list A) :
  (forall y, P y -> P (f y)) -> Forall P l -> Forall P (upd_nth i f l).
Proof.
  intros Hf H. revert i; induction H as [|y l Hy Hl IH]; intros [|i]; simpl;
    constructor; auto.
Qed.

(** ** Rectangular arrays *)

Lemma rectangular_row (r c : nat) (a : ndarray) (i : nat) :
  rectangular r c a -> (i < r)%nat -> length (nth i a []) = c.
Proof.
  intros [Hl Hrows] Hi. rewrite Forall_forall in Hrows.
  apply Hrows. apply nth_In. lia.
Qed.

Lemma rectangular_ext (r c : nat) (a b : ndarray) :
  rectangular r c a -> rectangular r c b ->
  (forall i j, (i < r)%nat -> (j < c)%nat -> item a i j = item b i j) ->
  a = b.
Proof.
  intros Ha Hb H.
  apply (nth_ext a b [] []).
  - destruct Ha, Hb; congruence.
  - intros i Hi. destruct Ha as [Hla Hra]. rewrite Hla in Hi.
    assert (Hra' := rectangular_row r c a i (conj Hla Hra) Hi).
    assert (Hrb' := rectangular_row r c b i Hb Hi).
    apply (nth_ext _ _ 0 0); [congruence|].
    intros j Hj. apply H; [exact Hi | lia].
Qed.

Lemma rectangular_upd (r c : nat) (a : ndarray) (i j : nat) (v : Qc) :
  rectangular r c a -> rectangular r c (upd_nth i (set_nth j v) a).
Proof.
  intros [Hl Hrows]. split.
  - rewrite upd_nth_length. exact Hl.
  - apply upd_nth_Forall; [|exact Hrows].
    intros row Hrow. rewrite set_nth_length. exact Hrow.
Qed.

Lemma item_upd (r c : nat) (a : ndarray) (i j i' j' : nat) (v : Qc) :
  rectangular r c a -> (i < r)%nat -> (j < c)%nat ->
  item (upd_nth i (set_nth j v) a) i' j'
  = if (i' =? i)%nat && (j' =? j)%nat then v else item a i' j'.
Proof.
  intros Ha Hi Hj. unfold item. rewrite nth_upd_nth.
  destruct Ha as [Hl Hrows].
  assert (Hil : (i <? length a)%nat = true) by (apply Nat.ltb_lt; lia).
  rewrite Hil, andb_true_r.
  destruct (i' =? i)%nat eqn:Hii; simpl; [|reflexivity].
  apply Nat.eqb_eq in Hii. subst i'.
  rewrite nth_set_nth.
  rewrite (rectangular_row r c a i (conj Hl Hrows) Hi).
  assert (Hjl : (j <? c)%nat = true) by (apply Nat.ltb_lt; lia).
  rewrite Hjl, andb_true_r. reflexivity.
Qed.

Lemma setitem_Ok (r c : nat) (a : ndarray) (i j : nat) (v : Qc) :
  rectangular r c a -> (i < r)%nat -> (j < c)%nat ->
  setitem a i j v = Ok (upd_nth i (set_nth j v) a).
Proof.
  intros Ha Hi Hj. unfold setitem.
  rewrite (rectangular_row r c a i Ha Hi). destruct Ha as [Hl _].
  assert (H1 : (i <? length a)%nat = true) by (apply Nat.ltb_lt; lia).
  assert (H2 : (j <? c)%nat = true) by (apply Nat.ltb_lt; lia).
  rewrite H1, H2. reflexivity.
Qed.

(** ** Loops *)

(** A loop over a range keeps an invariant that each pass keeps, if it
    ends without an exception. *)
Lemma for_each_invariant {S : Type} (P : nat -> S -> Prop)
  (body : nat -> S -> result S) (len : nat) :
  forall (start : nat) (s s' : S),
  (forall k t t', (start <= k < start + len)%nat -> P k t -> body k t = Ok t' ->
                  P (Datatypes.S k) t') ->
  P start s ->
  for_each (seq start len) body s = Ok s' ->
  P (start + len)%nat s'.
Proof.
  induction len as [|len IH]; intros start s s' Hstep H0 Hrun; simpl in Hrun.
  - injection Hrun as <-. rewrite Nat.add_0_r. exact H0.
  - destruct (body start s) as [t|e] eqn:Hb; simpl in Hrun; [|discriminate].
    replace (start + Datatypes.S len)%nat with (Datatypes.S start + len)%nat by lia.
    apply (IH (Datatypes.S start) t s'); auto.
    + intros k u u' Hk. apply Hstep. lia.
    + apply (Hstep start s t); auto. lia.
Qed.

(** A loop over a range ends without an exception when each pass does so
    under an invariant that it keeps. *)
Lemma for_each_total {S : Type} (P : nat -> S -> Prop)
  (body : nat -> S -> result S) (len : nat) :
  forall (start : nat) (s : S),
  (forall k t, (start <= k < start + len)%nat -> P k t ->
               exists t', body k t = Ok t' /\ P (Datatypes.S k) t') ->
  P start s ->
  exists s', for_each (seq start len) body s = Ok s' /\ P (start + len)%nat s'.
Proof.
  induction len as [|len IH]; intros start s Hstep H0; simpl.
  - exists s. rewrite Nat.add_0_r. auto.
  - destruct (Hstep start s ltac:(lia) H0) as (t & Hb & Ht). rewrite Hb; simpl.
    replace (start + Datatypes.S len)%nat with (Datatypes.S start + len)%nat by lia.
    apply IH; auto. intros k u Hk. apply Hstep. lia.
Qed.

(** ** Shapes and inner products *)

Lemma same_shapeb_refl (a : ndarray) : same_shapeb a a = true.
Proof.
  induction a as [|r a IH]; simpl; [reflexivity|].
  rewrite Nat.eqb_refl. exact IH.
Qed.

Lemma same_shapeb_sym (a b : ndarray) : same_shapeb a b = same_shapeb b a.
Proof.
  revert b; induction a as [|r a IH]; intros [|s b]; simpl; try reflexivity.
  rewrite IH, Nat.eqb_sym. reflexivity.
Qed.

Lemma dot_app (u u' v v' : vector) :
  length u = length u' ->
  dot (u ++ v) (u' ++ v') = dot u u' + dot v v'.
Proof.
  revert u'; induction u as [|a u IH]; intros [|b u'] H; simpl in *;
    try discriminate.
  - ring.
  - rewrite IH by lia. ring.
Qed.

(** On arrays of one shape the double sum of [einsum] is the inner product
    of the flattened arrays. *)
Lemma sum_ij_flat_dot (a b : ndarray) :
  same_shapeb a b = true -> sum_ij a b = flat_dot a b.
Proof.
  unfold flat_dot.
  revert b; induction a as [|r a IH]; intros [|s b] H; simpl in *;
    try discriminate; try reflexivity.
  apply andb_true_iff in H. destruct H as [Hrs Hab]. apply Nat.eqb_eq in Hrs.
  rewrite dot_app by exact Hrs. rewrite IH by exact Hab. reflexivity.
Qed.

Lemma flat_dot_comm (a b : ndarray) : flat_dot a b = flat_dot b a.
Proof. unfold flat_dot. apply dot_comm. Qed.

Lemma einsum_Ok (a b : ndarray) (v : Qc) :
  einsum_ij_ij a b = Ok v -> same_shapeb a b = true /\ v = flat_dot a b.
Proof.
  unfold einsum_ij_ij. destruct (same_shapeb a b) eqn:H; [|discriminate].
  intros Hv. injection Hv as <-. split; [reflexivity | apply sum_ij_flat_dot; exact H].
Qed.

Lemma getitem_Ok {A : Type} (l : list A) (i : nat) (x d : A) :
  getitem l i = Ok x -> (i < length l)%nat /\ nth i l d = x.
Proof.
  unfold getitem. destruct (nth_error l i) as [y|] eqn:H; [|discriminate].
  intros Hx. injection Hx as <-. split.
  - apply nth_error_Some. congruence.
  - apply nth_error_nth. exact H.
Qed.

Lemma getitem_lt {A : Type} (l : list A) (i : nat) (d : A) :
  (i < length l)%nat -> getitem l i = Ok (nth i l d).
Proof.
  intros H. unfold getitem. rewrite (nth_error_nth' l d H). reflexivity.
Qed.

(** ** The matrix of the Pulay equation *)

Lemma nth_map_seq {A : Type} (f : nat -> A) (N i : nat) (d : A) :
  (i < N)%nat -> nth i (map f (seq 0 N)) d = f i.
Proof.
  intros Hi.
  rewrite (nth_indep _ d (f 0%nat)) by (rewrite length_map, length_seq; exact Hi).
  rewrite (map_nth f). rewrite seq_nth by exact Hi. reflexivity.
Qed.

Lemma pulay_matrix_length (N : nat) (resid : list ndarray) :
  length (pulay_matrix N resid) = (N + 1)%nat.
Proof.
  unfold pulay_matrix. rewrite length_app, length_map, length_seq. reflexivity.
Qed.

Lemma pulay_matrix_row (N : nat) (resid : list ndarray) (i : nat) :
  (i < N)%nat ->
  nth i (pulay_matrix N resid) [] = map (overlap resid i) (seq 0 N) ++ [-(1)].
Proof.
  intros Hi. unfold pulay_matrix.
  rewrite app_nth1 by (rewrite length_map, length_seq; exact Hi).
  apply (nth_map_seq (fun i => map (overlap resid i) (seq 0 N) ++ [-(1)])).
  exact Hi.
Qed.

Lemma pulay_matrix_last_row (N : nat) (resid : list ndarray) :
  nth N (pulay_matrix N resid) [] = repeat (-(1)) N ++ [0].
Proof.
  unfold pulay_matrix.
  rewrite app_nth2 by (rewrite length_map, length_seq; lia).
  rewrite length_map, length_seq, Nat.sub_diag. reflexivity.
Qed.

Lemma pulay_matrix_rectangular (N : nat) (resid : list ndarray) :
  rectangular (N + 1) (N + 1) (pulay_matrix N resid).
Proof.
  split; [apply pulay_matrix_length|].
  unfold pulay_matrix. apply Forall_app. split.
  - rewrite Forall_map. apply Forall_forall. intros i _.
    rewrite length_app, length_map, length_seq. reflexivity.
  - constructor; [|constructor].
    rewrite length_app, repeat_length. reflexivity.
Qed.

Lemma pulay_matrix_overlap (N : nat) (resid : list ndarray) (i j : nat) :
  (i < N)%nat -> (j < N)%nat ->
  item (pulay_matrix N resid) i j = overlap resid i j.
Proof.
  intros Hi Hj. unfold item. rewrite pulay_matrix_row by exact Hi.
  rewrite app_nth1 by (rewrite length_map, length_seq; exact Hj).
  apply nth_map_seq. exact Hj.
Qed.

Lemma pulay_matrix_last_column (N : nat) (resid : list ndarray) (i : nat) :
  (i < N)%nat -> item (pulay_matrix N resid) i N = -(1).
Proof.
  intros Hi. unfold item. rewrite pulay_matrix_row by exact Hi.
  rewrite app_nth2 by (rewrite length_map, length_seq; lia).
  rewrite length_map, length_seq, Nat.sub_diag. reflexivity.
Qed.

Lemma pulay_matrix_bottom (N : nat) (resid : list ndarray) (j : nat) :
  (j < N)%nat -> item (pulay_matrix N resid) N j = -(1).
Proof.
  intros Hj. unfold item. rewrite pulay_matrix_last_row.
  rewrite app_nth1 by (rewrite repeat_length; exact Hj).
  apply nth_repeat_lt. exact Hj.
Qed.

Lemma pulay_matrix_corner (N : nat) (resid : list ndarray) :
  item (pulay_matrix N resid) N N = 0.
Proof.
  unfold item. rewrite pulay_matrix_last_row.
  rewrite app_nth2 by (rewrite repeat_length; lia).
  rewrite repeat_length, Nat.sub_diag. reflexivity.
Qed.

(** A fully assembled array is the matrix of the Pulay equation. *)
Lemma assembled_all (N : nat) (resid : list ndarray) (B : ndarray) :
  assembled N resid (fun _ _ => True) B -> B = pulay_matrix N resid.
Proof.
  intros (Hrect & Hbot & Hcol & Hcorner & Hfill).
  apply (rectangular_ext (N + 1) (N + 1)); auto using pulay_matrix_rectangular.
  intros i j Hi Hj.
  destruct (Nat.eq_dec i N) as [->|Hi'], (Nat.eq_dec j N) as [->|Hj'].
  - rewrite pulay_matrix_corner. exact Hcorner.
  - rewrite pulay_matrix_bottom by lia. apply Hbot. lia.
  - rewrite pulay_matrix_last_column by lia. apply Hcol. lia.
  - rewrite pulay_matrix_overlap by lia. apply Hfill; auto; lia.
Qed.

(** ** Assembling the matrix *)

Lemma np_empty_rectangular (junk : nat -> nat -> Qc) (r c : nat) :
  rectangular r c (np_empty junk r c).
Proof.
  unfold np_empty. split.
  - rewrite length_map, length_seq. reflexivity.
  - rewrite Forall_map. apply Forall_forall. intros i _.
    rewrite length_map, length_seq. reflexivity.
Qed.

Lemma set_row_rectangular (r c : nat) (a : ndarray) (i : nat) (v : Qc) :
  rectangular r c a -> rectangular r c (set_row a i v).
Proof.
  intros [Hl Hrows]. unfold set_row. split.
  - rewrite upd_nth_length. exact Hl.
  - apply upd_nth_Forall; [|exact Hrows].
    intros row Hrow. rewrite length_map. exact Hrow.
Qed.

Lemma set_col_rectangular (r c : nat) (a : ndarray) (j : nat) (v : Qc) :
  rectangular r c a -> rectangular r c (set_col a j v).
Proof.
  intros [Hl Hrows]. unfold set_col. split.
  - rewrite length_map. exact Hl.
  - rewrite Forall_map. eapply Forall_impl; [|exact Hrows].
    intros row Hrow. simpl. rewrite set_nth_length. exact Hrow.
Qed.

Lemma item_set_col (r c : nat) (a : ndarray) (i j j' : nat) (v : Qc) :
  rectangular r c a -> (i < r)%nat -> (j < c)%nat ->
  item (set_col a j v) i j' = if (j' =? j)%nat then v else item a i j'.
Proof.
  intros Ha Hi Hj. unfold item, set_col.
  change (@nil Qc) with (set_nth j v (@nil Qc)) at 1.
  rewrite map_nth, nth_set_nth.
  rewrite (rectangular_row r c a i Ha Hi).
  assert (H : (j <? c)%nat = true) by (apply Nat.ltb_lt; exact Hj).
  rewrite H, andb_true_r. reflexivity.
Qed.

Lemma item_set_row (r c : nat) (a : ndarray) (i i' j : nat) (v : Qc) :
  rectangular r c a -> (i < r)%nat -> (j < c)%nat ->
  item (set_row a i v) i' j = if (i' =? i)%nat then v else item a i' j.
Proof.
  intros Ha Hi Hj. unfold item, set_row. rewrite nth_upd_nth.
  pose proof (rectangular_row r c a i Ha Hi) as Hrow. destruct Ha as [Hl _].
  assert (H : (i <? length a)%nat = true) by (apply Nat.ltb_lt; lia).
  rewrite H, andb_true_r.
  destruct (i' =? i)%nat; [|reflexivity].
  rewrite (nth_indep _ 0 v) by (rewrite length_map; lia).
  exact (map_nth (fun _ : Qc => v) (nth i a []) 0 j).
Qed.

(** The array after the three border assignments, whatever [np.empty]
    found in memory. *)
Lemma border_assembled (junk : nat -> nat -> Qc) (N : nat) (resid : list ndarray) :
  assembled N resid (fun _ _ => False)
    (upd_nth N (set_nth N 0)
       (set_col (set_row (np_empty junk (N + 1) (N + 1)) N (-(1))) N (-(1)))).
Proof.
  pose proof (np_empty_rectangular junk (N + 1) (N + 1)) as H0.
  pose proof (set_row_rectangular _ _ _ N (-(1)) H0) as H1.
  pose proof (set_col_rectangular _ _ _ N (-(1)) H1) as H2.
  split; [apply rectangular_upd; exact H2|].
  repeat split.
  - intros j Hj. rewrite (item_upd (N + 1) (N + 1)) by (auto; lia).
    rewrite Nat.eqb_refl; simpl.
    replace (j =? N)%nat with false by (symmetry; apply Nat.eqb_neq; lia).
    rewrite (item_set_col (N + 1) (N + 1)) by (auto; lia).
    replace (j =? N)%nat with false by (symmetry; apply Nat.eqb_neq; lia).
    rewrite (item_set_row (N + 1) (N + 1)) by (auto; lia).
    rewrite Nat.eqb_refl. reflexivity.
  - intros i Hi. rewrite (item_upd (N + 1) (N + 1)) by (auto; lia).
    replace (i =? N)%nat with false by (symmetry; apply Nat.eqb_neq; lia). simpl.
    rewrite (item_set_col (N + 1) (N + 1)) by (auto; lia).
    rewrite Nat.eqb_refl. reflexivity.
  - rewrite (item_upd (N + 1) (N + 1)) by (auto; lia).
    rewrite Nat.eqb_refl. reflexivity.
  - intros i j _ _ [].
Qed.

Lemma assembled_weaken (N : nat) (resid : list ndarray) (d d' : nat -> nat -> Prop)
  (B : ndarray) :
  (forall i j, (i < N)%nat -> (j < N)%nat -> d' i j -> d i j) ->
  assembled N resid d B -> assembled N resid d' B.
Proof.
  intros Hd (Hrect & Hbot & Hcol & Hcorner & Hfill).
  repeat split; auto; try apply Hrect.
Qed.

(** One assignment of the inner loop, when it raises nothing. *)
Lemma fill_entry_step (N : nat) (resid : list ndarray) (d : nat -> nat -> Prop)
  (i j : nat) (B B' : ndarray) :
  (i < N)%nat -> (j < N)%nat ->
  assembled N resid d B ->
  fill_entry resid i j B = Ok B' ->
  assembled N resid (fun i' j' => d i' j' \/ (i' = i /\ j' = j)) B'.
Proof.
  intros Hi Hj (Hrect & Hbot & Hcol & Hcorner & Hfill) Hrun.
  unfold fill_entry in Hrun.
  destruct (getitem resid i) as [ri|] eqn:Hri; simpl in Hrun; [|discriminate].
  destruct (getitem resid j) as [rj|] eqn:Hrj; simpl in Hrun; [|discriminate].
  destruct (einsum_ij_ij ri rj) as [v|] eqn:Hv; simpl in Hrun; [|discriminate].
  rewrite (setitem_Ok (N + 1) (N + 1)) in Hrun by (auto; lia).
  injection Hrun as <-.
  destruct (getitem_Ok _ _ _ [] Hri) as [_ <-].
  destruct (getitem_Ok _ _ _ [] Hrj) as [_ <-].
  destruct (einsum_Ok _ _ _ Hv) as [_ ->]. fold (overlap resid i j).
  split; [apply rectangular_upd; exact Hrect|].
  repeat split.
  - intros j' Hj'. rewrite (item_upd (N + 1) (N + 1)) by (auto; lia).
    replace (N =? i)%nat with false by (symmetry; apply Nat.eqb_neq; lia).
    simpl. auto.
  - intros i' Hi'. rewrite (item_upd (N + 1) (N + 1)) by (auto; lia).
    replace (N =? j)%nat with false by (symmetry; apply Nat.eqb_neq; lia).
    rewrite andb_false_r. auto.
  - rewrite (item_upd (N + 1) (N + 1)) by (auto; lia).
    replace (N =? i)%nat with false by (symmetry; apply Nat.eqb_neq; lia).
    simpl. exact Hcorner.
  - intros i' j' Hi' Hj' Hd. rewrite (item_upd (N + 1) (N + 1)) by (auto; lia).
    destruct (i' =? i)%nat eqn:Ei; destruct (j' =? j)%nat eqn:Ej; simpl.
    + apply Nat.eqb_eq in Ei, Ej. subst. reflexivity.
    + apply Nat.eqb_neq in Ej. apply Hfill; auto. destruct Hd as [|[_ ?]]; auto. contradiction.
    + apply Nat.eqb_neq in Ei. apply Hfill; auto. destruct Hd as [|[? _]]; auto. contradiction.
    + apply Nat.eqb_neq in Ei. apply Hfill; auto. destruct Hd as [|[? _]]; auto. contradiction.
Qed.

(** The nested loops, when they raise nothing, fill in every overlap. *)
Lemma fill_B_Ok (N : nat) (resid : list ndarray) (B B' : ndarray) :
  assembled N resid (fun _ _ => False) B ->
  fill_B resid N B = Ok B' ->
  assembled N resid (fun _ _ => True) B'.
Proof.
  intros H0 Hrun. unfold fill_B, xrange in Hrun.
  apply (assembled_weaken N resid (fun i' _ => (i' < 0 + N)%nat)); [intros; simpl; lia|].
  eapply (for_each_invariant
            (fun i B => assembled N resid (fun i' _ => (i' < i)%nat) B) _ N 0 B B');
    [| eapply assembled_weaken; [|exact H0]; cbv beta; intros; lia | exact Hrun].
  intros i t t' Hi Ht Hinner.
  apply (assembled_weaken N resid
           (fun i' j' => (i' < i)%nat \/ (i' = i /\ (j' < 0 + N)%nat)));
    [intros; simpl; lia|].
  eapply (for_each_invariant
            (fun j B => assembled N resid
                          (fun i' j' => (i' < i)%nat \/ (i' = i /\ (j' < j)%nat)) B)
            _ N 0 t t');
    [| eapply assembled_weaken; [|exact Ht]; cbv beta; intros; lia | exact Hinner].
  intros j u u' Hj Hu Hstep.
  apply (assembled_weaken N resid
           (fun i' j' => ((i' < i)%nat \/ (i' = i /\ (j' < j)%nat))
                         \/ (i' = i /\ j' = j)));
    [intros; lia|].
  apply (fill_entry_step N resid _ i j u u'); auto; lia.
Qed.

(** When [build_B] raises nothing, it returns the matrix of the Pulay
    equation over the first [len(F_list)] residuals. *)
Theorem build_B_Ok (junk : nat -> nat -> Qc) (F_list DIIS_RESID : list ndarray)
  (B : ndarray) :
  build_B junk F_list DIIS_RESID = Ok B ->
  B = pulay_matrix (length F_list) DIIS_RESID.
Proof.
  unfold build_B. rewrite Nat.add_sub. intros Hrun.
  apply assembled_all.
  eapply fill_B_Ok; [|exact Hrun].
  apply border_assembled.
Qed.

(** With as many residuals as trials, all of one shape, it raises nothing. *)
Theorem build_B_total (junk : nat -> nat -> Qc) (F_list DIIS_RESID : list ndarray) :
  length DIIS_RESID = length F_list -> uniform DIIS_RESID ->
  build_B junk F_list DIIS_RESID
  = Ok (pulay_matrix (length F_list) DIIS_RESID).
Proof.
  intros Hlen Hu.
  set (N := length F_list) in *.
  assert (Hex : exists B, build_B junk F_list DIIS_RESID = Ok B).
  { unfold build_B. fold N. rewrite Nat.add_sub. unfold fill_B, xrange.
    match goal with |- exists B, for_each _ ?body ?B0 = _ =>
      destruct (for_each_total (fun _ B => rectangular (N + 1) (N + 1) B) body N 0 B0)
        as (B & HB & _)
    end.
    - intros i t Hi Ht.
      apply (for_each_total (fun _ B => rectangular (N + 1) (N + 1) B) _ N 0 t);
        [|exact Ht].
      intros j u Hj Hu'. unfold fill_entry.
      rewrite (getitem_lt DIIS_RESID i []) by lia.
      rewrite (getitem_lt DIIS_RESID j []) by lia. simpl.
      unfold einsum_ij_ij. rewrite Hu by (apply nth_In; lia). simpl.
      rewrite (setitem_Ok (N + 1) (N + 1)) by (auto; lia).
      eexists; split; [reflexivity|]. apply rectangular_upd. exact Hu'.
    - apply rectangular_upd, set_col_rectangular, set_row_rectangular,
        np_empty_rectangular.
    - exists B. exact HB. }
  destruct Hex as (B & HB). rewrite HB. f_equal. apply (build_B_Ok junk _ _ _ HB).
Qed.

(** ** Right-hand side and shape of the system *)

Lemma set_nth_last_zero (N : nat) (x : Qc) :
  set_nth N x (repeat 0 (S N)) = repeat 0 N ++ [x].
Proof.
  induction N as [|N IH]; simpl; [reflexivity|].
  f_equal. exact IH.
Qed.

Lemma build_rhs_spec (N : nat) : build_rhs (N + 1) = pulay_rhs N.
Proof.
  unfold build_rhs, pulay_rhs, zeros. rewrite Nat.add_sub, Nat.add_1_r.
  apply set_nth_last_zero.
Qed.

Lemma pulay_rhs_length (N : nat) : length (pulay_rhs N) = (N + 1)%nat.
Proof. unfold pulay_rhs. rewrite length_app, zeros_length. reflexivity. Qed.

Lemma pulay_matrix_square (N : nat) (resid : list ndarray) :
  squareb (pulay_matrix N resid) = true.
Proof.
  unfold squareb. apply forallb_forall. intros row Hin.
  apply Nat.eqb_eq. rewrite pulay_matrix_length.
  destruct (pulay_matrix_rectangular N resid) as [_ Hrows].
  rewrite Forall_forall in Hrows. apply Hrows. exact Hin.
Qed.

(** ** The constraint row *)

Lemma dot_repeat (k : Qc) (c : vector) :
  dot (repeat k (length c)) c = k * vsum c.
Proof.
  induction c as [|a c IH]; simpl.
  - ring.
  - rewrite IH. unfold vsum; simpl. ring.
Qed.

Lemma mat_vec_app (B1 B2 : ndarray) (x : vector) :
  mat_vec (B1 ++ B2) x = mat_vec B1 x ++ mat_vec B2 x.
Proof. unfold mat_vec. apply map_app. Qed.

(** A vector of [N + 1] entries is its first [N] entries and a last one. *)
Lemma firstn_snoc (N : nat) (x : vector) :
  length x = (N + 1)%nat -> exists l, x = firstn N x ++ [l].
Proof.
  intros Hx. exists (nth N x 0).
  rewrite <- (firstn_skipn N x) at 1. f_equal.
  assert (Hs : length (skipn N x) = 1%nat) by (rewrite length_skipn; lia).
  destruct (skipn N x) as [|a [|b t]] eqn:E; try discriminate.
  f_equal.
  rewrite <- (firstn_skipn N x) at 1. rewrite E.
  rewrite app_nth2 by (rewrite length_firstn; lia).
  rewrite length_firstn. replace (N - Nat.min N (length x))%nat with 0%nat by lia.
  reflexivity.
Qed.

(** The last equation of the Pulay system says that the first [N] unknowns
    sum to one. *)
Lemma pulay_constraint (N : nat) (resid : list ndarray) (x : vector) :
  length x = (N + 1)%nat ->
  mat_vec (pulay_matrix N resid) x = pulay_rhs N ->
  vsum (firstn N x) = 1.
Proof.
  intros Hx Heq. unfold pulay_matrix, pulay_rhs in Heq.
  rewrite mat_vec_app in Heq. simpl in Heq.
  apply app_inj_tail in Heq. destruct Heq as [_ Hlast].
  destruct (firstn_snoc N x Hx) as [l Hl].
  assert (Hf : length (firstn N x) = N) by (rewrite length_firstn; lia).
  rewrite Hl in Hlast.
  rewrite dot_app in Hlast by (rewrite repeat_length, Hf; reflexivity).
  rewrite <- Hf in Hlast at 1. rewrite dot_repeat in Hlast. simpl in Hlast.
  assert (H : vsum (firstn N x) = - (- (1) * vsum (firstn N x) + (0 * l + 0)))
    by ring.
  rewrite H, Hlast. ring.
Qed.

(** ** Entries of sums and multiples *)

Lemma item_nil (p q : nat) : item [] p q = 0.
Proof. unfold item. destruct p, q; reflexivity. Qed.

Lemma nth_vadd (r s : vector) (q : nat) :
  length r = length s -> nth q (vadd r s) 0 = nth q r 0 + nth q s 0.
Proof.
  revert s q; induction r as [|a r IH]; intros [|b s] q H; simpl in *;
    try discriminate.
  - destruct q; ring.
  - destruct q as [|q]; [reflexivity|]. apply IH. lia.
Qed.

Lemma item_madd (a b : ndarray) (p q : nat) :
  same_shapeb a b = true ->
  item (madd a b) p q = item a p q + item b p q.
Proof.
  revert b p; induction a as [|r a IH]; intros [|s b] p H; simpl in *;
    try discriminate.
  - rewrite item_nil. ring.
  - apply andb_true_iff in H. destruct H as [Hrs Hab]. apply Nat.eqb_eq in Hrs.
    destruct p as [|p].
    + unfold item; simpl. apply nth_vadd. exact Hrs.
    + apply (IH b p Hab).
Qed.

Lemma item_scale (c : Qc) (a : ndarray) (p q : nat) :
  item (scale c a) p q = c * item a p q.
Proof.
  unfold item, scale.
  change (@nil Qc) with (map (Qcmult c) []) at 1. rewrite map_nth.
  revert q; induction (nth p a []) as [|x row IH]; intros [|q]; simpl;
    try ring; try reflexivity.
  apply IH.
Qed.

Lemma item_zeros_like (a : ndarray) (p q : nat) : item (zeros_like a) p q = 0.
Proof.
  unfold item, zeros_like.
  change (@nil Qc) with (map (fun _ : Qc => 0) []) at 1. rewrite map_nth.
  revert q; induction (nth p a []) as [|x row IH]; intros [|q]; simpl;
    try reflexivity.
  apply IH.
Qed.

Lemma same_shapeb_trans (a b c : ndarray) :
  same_shapeb a b = true -> same_shapeb b c = true -> same_shapeb a c = true.
Proof.
  revert b c; induction a as [|r a IH]; intros [|s b] [|t c] H1 H2; simpl in *;
    try discriminate; try reflexivity.
  apply andb_true_iff in H1, H2. destruct H1 as [H1 H1'], H2 as [H2 H2'].
  apply Nat.eqb_eq in H1, H2. apply andb_true_iff. split.
  - apply Nat.eqb_eq. congruence.
  - apply (IH b c); assumption.
Qed.

Lemma same_shapeb_scale (c : Qc) (a : ndarray) : same_shapeb (scale c a) a = true.
Proof.
  induction a as [|r a IH]; simpl; [reflexivity|].
  rewrite length_map, Nat.eqb_refl. exact IH.
Qed.

Lemma same_shapeb_zeros_like (a : ndarray) : same_shapeb (zeros_like a) a = true.
Proof.
  induction a as [|r a IH]; simpl; [reflexivity|].
  rewrite length_map, Nat.eqb_refl. exact IH.
Qed.

Lemma vadd_length (r s : vector) :
  length r = length s -> length (vadd r s) = length r.
Proof.
  revert s; induction r as [|a r IH]; intros [|b s] H; simpl in *;
    try discriminate; try reflexivity.
  f_equal. apply IH. lia.
Qed.

Lemma same_shapeb_madd (a b : ndarray) :
  same_shapeb a b = true -> same_shapeb (madd a b) a = true.
Proof.
  revert b; induction a as [|r a IH]; intros [|s b] H; simpl in *;
    try discriminate; try reflexivity.
  apply andb_true_iff in H. destruct H as [Hrs Hab]. apply Nat.eqb_eq in Hrs.
  rewrite vadd_length by exact Hrs. rewrite Nat.eqb_refl. apply IH. exact Hab.
Qed.

(** Arrays of one shape with the same entries are the same array. *)
Lemma same_shape_ext (a b : ndarray) :
  same_shapeb a b = true ->
  (forall p q, item a p q = item b p q) -> a = b.
Proof.
  revert b; induction a as [|r a IH]; intros [|s b] H Hitems; simpl in *;
    try discriminate; try reflexivity.
  apply andb_true_iff in H. destruct H as [Hrs Hab]. apply Nat.eqb_eq in Hrs.
  f_equal.
  - apply (nth_ext r s 0 0 Hrs). intros q _. exact (Hitems 0%nat q).
  - apply IH; [exact Hab|]. intros p q. exact (Hitems (S p) q).
Qed.

(** ** The DIIS Fock matrix *)

Lemma weighted_sum_nil_r (c : vector) (p q : nat) : weighted_sum c [] p q = 0.
Proof. destruct c; reflexivity. Qed.

Lemma weighted_sum_step (x : nat) : forall (c : vector) (trials : list ndarray) (p q : nat),
  (x < length c)%nat -> (x < length trials)%nat ->
  weighted_sum (firstn (S x) c) trials p q
  = weighted_sum (firstn x c) trials p q + nth x c 0 * item (nth x trials []) p q.
Proof.
  induction x as [|x IH]; intros [|cx c] [|Fx trials] p q Hc Ht; simpl in *;
    try lia.
  - ring.
  - rewrite (IH c trials p q) by lia. ring.
Qed.

(** One pass of the accumulation loop, when it raises nothing. *)
Lemma diis_fock_step (coeff : vector) (trials : list ndarray) (F acc acc' : ndarray)
  (x : nat) :
  same_shapeb acc F = true ->
  (forall p q, item acc p q = weighted_sum (firstn x coeff) trials p q) ->
  (c <- getitem coeff x ;; Fx <- getitem trials x ;; iadd acc (scale c Fx)) = Ok acc' ->
  (x < length trials)%nat
  /\ same_shapeb acc' F = true
  /\ (forall p q, item acc' p q = weighted_sum (firstn (S x) coeff) trials p q).
Proof.
  intros Hshape Hitems Hrun.
  destruct (getitem coeff x) as [c|] eqn:Hc; simpl in Hrun; [|discriminate].
  destruct (getitem trials x) as [Fx|] eqn:HF; simpl in Hrun; [|discriminate].
  unfold iadd in Hrun.
  destruct (same_shapeb acc (scale c Fx)) eqn:Hs; [|discriminate].
  injection Hrun as <-.
  destruct (getitem_Ok _ _ _ 0 Hc) as [Hxc <-].
  destruct (getitem_Ok _ _ _ [] HF) as [Hxt <-].
  split; [exact Hxt|]. split.
  - apply (same_shapeb_trans _ acc); [apply same_shapeb_madd; exact Hs | exact Hshape].
  - intros p q. rewrite item_madd by exact Hs. rewrite item_scale, Hitems.
    rewrite weighted_sum_step by assumption. reflexivity.
Qed.

(** When [diis_fock] raises nothing, its result has the shape of [F] and
    its entries are the combination of the trials weighted by all the
    coefficients but the last. *)
Lemma diis_fock_Ok (coeff : vector) (trials : list ndarray) (F F' : ndarray) :
  diis_fock coeff trials F = Ok F' ->
  (length coeff - 1 <= length trials)%nat
  /\ same_shapeb F' F = true
  /\ (forall p q,
        item F' p q = weighted_sum (firstn (length coeff - 1) coeff) trials p q).
Proof.
  unfold diis_fock, xrange. intros Hrun.
  pose proof (for_each_invariant
    (fun x acc => (x <= length trials)%nat
                  /\ same_shapeb acc F = true
                  /\ (forall p q, item acc p q
                                  = weighted_sum (firstn x coeff) trials p q))
    (fun x F0 => c <- getitem coeff x ;; Fx <- getitem trials x ;;
                 iadd F0 (scale c Fx))
    (length coeff - 1) 0 (zeros_like F) F') as Hinv.
  apply Hinv in Hrun; clear Hinv.
  - exact Hrun.
  - intros x acc acc' Hx (_ & Hshape & Hitems) Hstep.
    destruct (diis_fock_step coeff trials F acc acc' x Hshape Hitems Hstep)
      as (Hxt & Hs' & Hi').
    split; [lia|]. split; assumption.
  - split; [lia|]. split; [apply same_shapeb_zeros_like|].
    intros p q. rewrite item_zeros_like. reflexivity.
Qed.

(** With one coefficient more than trials, and trials of the shape of [F],
    it raises nothing. *)
Lemma diis_fock_total (coeff : vector) (trials : list ndarray) (F : ndarray) :
  length coeff = (length trials + 1)%nat ->
  (forall Fx, In Fx trials -> same_shapeb Fx F = true) ->
  exists F', diis_fock coeff trials F = Ok F'.
Proof.
  intros Hlen Hshape. unfold diis_fock, xrange.
  destruct (for_each_total (fun _ acc => same_shapeb acc F = true)
              (fun x F0 => c <- getitem coeff x ;; Fx <- getitem trials x ;;
                           iadd F0 (scale c Fx))
              (length coeff - 1) 0 (zeros_like F)) as (F' & HF' & _).
  - intros x acc Hx Hacc.
    rewrite (getitem_lt coeff x 0) by lia.
    rewrite (getitem_lt trials x []) by lia. simpl.
    assert (Hs : same_shapeb acc (scale (nth x coeff 0) (nth x trials [])) = true).
    { apply (same_shapeb_trans _ F); [exact Hacc|].
      rewrite same_shapeb_sym.
      apply (same_shapeb_trans _ (nth x trials []));
        [apply same_shapeb_scale | apply Hshape, nth_In; lia]. }
    unfold iadd. rewrite Hs. eexists; split; [reflexivity|].
    apply (same_shapeb_trans _ acc); [apply same_shapeb_madd; exact Hs | exact Hacc].
  - apply same_shapeb_zeros_like.
  - exists F'. exact HF'.
Qed.

(** ** Equalities of computed arrays *)

Lemma Qc_this_inj (x y : Qc) : this x = this y -> x = y.
Proof. intros H. apply Qc_is_canon. rewrite H. reflexivity. Qed.

Lemma vector_this_inj (u v : vector) : map this u = map this v -> u = v.
Proof.
  revert v; induction u as [|a u IH]; intros [|b v] H; simpl in H;
    try discriminate; try reflexivity.
  injection H as Ha Hu. f_equal; [apply Qc_this_inj; exact Ha | apply IH; exact Hu].
Qed.

(** [x = 0] (or any value) read off an equation [H] by ring reasoning:
    [x] equals [e] by [ring], and [e] rewrites by [H] to the value. *)
Ltac from_equation H e := transitivity e; [ring | rewrite H; ring].

Lemma cons_eq_inv {A : Type} (a b : A) (l l' : list A) :
  a :: l = b :: l' -> a = b /\ l = l'.
Proof. intros H. split; congruence. Qed.

(** ** The extrapolation step *)

Lemma item_outside (r c : nat) (a : ndarray) (i j : nat) :
  rectangular r c a -> (r <= i \/ c <= j)%nat -> item a i j = 0.
Proof.
  intros Ha Hout. unfold item.
  destruct (Nat.lt_ge_cases i r) as [Hi|Hi].
  - apply nth_overflow. rewrite (rectangular_row r c a i Ha Hi). lia.
  - destruct Ha as [Hl _]. rewrite (nth_overflow a) by lia. destruct j; reflexivity.
Qed.

Lemma pulay_matrix_symmetric (N : nat) (resid : list ndarray) (i j : nat) :
  item (pulay_matrix N resid) i j = item (pulay_matrix N resid) j i.
Proof.
  pose proof (pulay_matrix_rectangular N resid) as Hrect.
  destruct (Nat.lt_ge_cases N i) as [Hi|Hi];
    [rewrite !(item_outside (N + 1) (N + 1)) by (auto; lia); reflexivity|].
  destruct (Nat.lt_ge_cases N j) as [Hj|Hj];
    [rewrite !(item_outside (N + 1) (N + 1)) by (auto; lia); reflexivity|].
  destruct (Nat.eq_dec i N) as [->|Hi'], (Nat.eq_dec j N) as [->|Hj'].
  - reflexivity.
  - rewrite pulay_matrix_bottom, pulay_matrix_last_column by lia. reflexivity.
  - rewrite pulay_matrix_bottom, pulay_matrix_last_column by lia. reflexivity.
  - rewrite !pulay_matrix_overlap by lia. apply flat_dot_comm.
Qed.

(** The step, when it raises nothing: the matrix, the solution and the
    combination. *)
Lemma diis_extrapolate_Ok (junk : nat -> nat -> Qc) (trials resid : list ndarray)
  (F F' : ndarray) :
  diis_extrapolate junk trials resid F = Ok F' ->
  exists coeff,
    build_B junk trials resid = Ok (pulay_matrix (length trials) resid)
    /\ linalg_solve (pulay_matrix (length trials) resid)
         (pulay_rhs (length trials)) = Ok coeff
    /\ length coeff = (length trials + 1)%nat
    /\ diis_fock coeff trials F = Ok F'.
Proof.
  unfold diis_extrapolate. intros Hrun.
  destruct (build_B junk trials resid) as [B|] eqn:HB; simpl in Hrun; [|discriminate].
  rewrite (build_B_Ok _ _ _ _ HB) in *.
  rewrite build_rhs_spec in Hrun.
  destruct (linalg_solve _ _) as [coeff|] eqn:Hsolve; simpl in Hrun; [|discriminate].
  exists coeff. repeat split; auto.
  destruct (solve_sound _ _ _ Hsolve) as [Hl _].
  rewrite Hl. apply pulay_matrix_length.
Qed.

Lemma uniform_pair (a : ndarray) : uniform [a].
Proof.
  intros x y [<-|[]] [<-|[]]. apply same_shapeb_refl.
Qed.

(** The Pulay system of a single residual: regular, with solution
    [(1, <r, r>)]. *)
Lemma single_system_regular (r : ndarray) : regular (pulay_matrix 1 [r]).
Proof.
  intros y Hy Hk. rewrite pulay_matrix_length in *.
  destruct y as [|y0 [|y1 [|? ?]]]; try discriminate.
  unfold pulay_matrix, mat_vec, zeros in *. simpl in Hk.
  apply cons_eq_inv in Hk. destruct Hk as [H1 Hk].
  apply cons_eq_inv in Hk. destruct Hk as [H2 _].
  assert (Hy0 : y0 = 0).
  { from_equation H2 (- (- (1) * y0 + (0 * y1 + 0))). }
  subst y0.
  assert (Hy1 : y1 = 0).
  { from_equation H1 (- (overlap [r] 0 0 * 0 + (- (1) * y1 + 0))). }
  subst y1. reflexivity.
Qed.

Lemma single_system_solution (r : ndarray) :
  linalg_solve (pulay_matrix 1 [r]) (pulay_rhs 1) = Ok [1; flat_dot r r].
Proof.
  destruct (solve_complete (pulay_matrix 1 [r]) (pulay_rhs 1)) as [x Hx].
  - apply pulay_matrix_square.
  - rewrite pulay_matrix_length. reflexivity.
  - apply single_system_regular.
  - rewrite Hx. f_equal.
    destruct (solve_sound _ _ _ Hx) as [Hl Heq]. rewrite pulay_matrix_length in Hl.
    destruct x as [|x0 [|x1 [|? ?]]]; try discriminate.
    unfold pulay_matrix, pulay_rhs, mat_vec, zeros, overlap in Heq. simpl in Heq.
    apply cons_eq_inv in Heq. destruct Heq as [H1 Heq].
    apply cons_eq_inv in Heq. destruct Heq as [H2 _].
    assert (Hx0 : x0 = 1).
    { from_equation H2 (- (- (1) * x0 + (0 * x1 + 0))). }
    subst x0.
    assert (Hx1 : x1 = flat_dot r r).
    { from_equation H1 (flat_dot r r - (flat_dot r r * 1 + (- (1) * x1 + 0))). }
    subst x1. reflexivity.
Qed.

Lemma madd_zeros_scale_one (F : ndarray) : madd (zeros_like F) (scale 1 F) = F.
Proof.
  assert (Hs : same_shapeb (zeros_like F) (scale 1 F) = true).
  { apply (same_shapeb_trans _ F); [apply same_shapeb_zeros_like|].
    rewrite same_shapeb_sym. apply same_shapeb_scale. }
  apply same_shape_ext.
  - apply (same_shapeb_trans _ (zeros_like F));
      [apply same_shapeb_madd; exact Hs | apply same_shapeb_zeros_like].
  - intros p q. rewrite item_madd by exact Hs.
    rewrite item_zeros_like, item_scale. ring.
Qed.

(** ** The scenario of the specification *)

Lemma scenario_uniform : uniform Scenario.residuals.
Proof.
  intros a b Ha Hb. simpl in Ha, Hb.
  destruct Ha as [<-|[<-|[]]], Hb as [<-|[<-|[]]]; reflexivity.
Qed.

Lemma scenario_regular : regular (pulay_matrix 2 Scenario.residuals).
Proof.
  eapply (solve_regular _ (pulay_rhs 2)). vm_compute. reflexivity.
Qed.

Lemma scenario_built :
  build_B Scenario.junk Scenario.trials Scenario.residuals
  = Ok (pulay_matrix 2 Scenario.residuals).
Proof.
  apply (build_B_total Scenario.junk Scenario.trials Scenario.residuals).
  - reflexivity.
  - apply scenario_uniform.
Qed.

(** * The claims *)



(** C7.  The matrix that [build_B] returns is symmetric: [B[i, j]] and
    [B[j, i]] are the same number, at every pair of indices. *)
Theorem overlap_matrix_symmetric (junk : nat -> nat -> Qc)
  (trials resid : list ndarray) (B : ndarray) :
  build_B junk trials resid = Ok B ->
  forall i j, item B i j = item B j i.
Proof.
  intros HB i j. rewrite (build_B_Ok _ _ _ _ HB).
  apply pulay_matrix_symmetric.
Qed.

Lemma overlap_matrix_symmetric_witness :
  build_B Scenario.junk Scenario.trials Scenario.residuals
  = Ok (pulay_matrix 2 Scenario.residuals)
  /\ item (pulay_matrix 2 Scenario.residuals) 0 1
     = item (pulay_matrix 2 Scenario.residuals) 1 0.
Proof.
  split; [exact scenario_built|].
  exact (overlap_matrix_symmetric Scenario.junk Scenario.trials Scenario.residuals
           _ scenario_built 0%nat 1%nat).
Defined.

(** C3.  For a history of [N >= 2] entries whose Pulay matrix is regular,
    the solve returns a solution, and its first [N] entries, the
    extrapolation coefficients, sum to exactly [1]. *)
Theorem coefficients_sum_to_one (junk : nat -> nat -> Qc)
  (trials resid : list ndarray) (B : ndarray) (N : nat) :
  length trials = N -> (2 <= N)%nat ->
  build_B junk trials resid = Ok B -> regular B ->
  exists coeff,
    linalg_solve B (build_rhs (N + 1)) = Ok coeff
    /\ length (firstn N coeff) = N
    /\ vsum (firstn N coeff) = 1.
Proof.
  intros Ht HN HB Hreg. subst N.
  rewrite (build_B_Ok _ _ _ _ HB) in *. rewrite build_rhs_spec.
  destruct (solve_complete (pulay_matrix (length trials) resid)
              (pulay_rhs (length trials))) as [coeff Hsolve].
  - apply pulay_matrix_square.
  - rewrite pulay_matrix_length. apply pulay_rhs_length.
  - exact Hreg.
  - exists coeff. split; [exact Hsolve|].
    destruct (solve_sound _ _ _ Hsolve) as [Hl Heq].
    rewrite pulay_matrix_length in Hl. split.
    + rewrite length_firstn. lia.
    + apply (pulay_constraint _ resid); assumption.
Qed.

Lemma coefficients_sum_to_one_witness :
  length Scenario.trials = 2%nat /\ (2 <= 2)%nat
  /\ build_B Scenario.junk Scenario.trials Scenario.residuals
     = Ok (pulay_matrix 2 Scenario.residuals)
  /\ regular (pulay_matrix 2 Scenario.residuals)
  /\ exists coeff,
       linalg_solve (pulay_matrix 2 Scenario.residuals) (build_rhs (2 + 1)) = Ok coeff
       /\ length (firstn 2 coeff) = 2%nat
       /\ vsum (firstn 2 coeff) = 1.
Proof.
  split; [reflexivity|]. split; [lia|]. split; [exact scenario_built|].
  split; [exact scenario_regular|].
  exact (coefficients_sum_to_one Scenario.junk Scenario.trials Scenario.residuals
           _ 2 eq_refl (le_n 2) scenario_built scenario_regular).
Defined.

(** C5.  On a history of [N] trials of the shape of [F], with [N]
    residuals of one shape and a regular Pulay matrix, the step returns an
    array of the shape of [F] whose every entry is [sum_i c_i * trial_i] at
    that entry, [c] being the first [N] entries of the solution, one for
    each of the [N] trials of the history. *)
Theorem diis_linear_combination (junk : nat -> nat -> Qc)
  (trials resid : list ndarray) (F : ndarray) (N : nat) :
  length trials = N -> length resid = N -> uniform resid ->
  (forall Fx, In Fx trials -> same_shapeb Fx F = true) ->
  regular (pulay_matrix N resid) ->
  exists coeff F',
    linalg_solve (pulay_matrix N resid) (pulay_rhs N) = Ok coeff
    /\ length (firstn N coeff) = length trials
    /\ diis_extrapolate junk trials resid F = Ok F'
    /\ same_shapeb F' F = true
    /\ forall p q, item F' p q = weighted_sum (firstn N coeff) trials p q.
Proof.
  intros Ht Hr Hu Hshape Hreg. subst N.
  destruct (solve_complete (pulay_matrix (length trials) resid)
              (pulay_rhs (length trials))) as [coeff Hsolve].
  { apply pulay_matrix_square. }
  { rewrite pulay_matrix_length. apply pulay_rhs_length. }
  { exact Hreg. }
  destruct (solve_sound _ _ _ Hsolve) as [Hl _]. rewrite pulay_matrix_length in Hl.
  destruct (diis_fock_total coeff trials F Hl Hshape) as [F' HF'].
  destruct (diis_fock_Ok _ _ _ _ HF') as (_ & Hs & Hitems).
  exists coeff, F'. split; [exact Hsolve|]. split.
  { rewrite length_firstn. lia. }
  split.
  { unfold diis_extrapolate. rewrite (build_B_total junk trials resid Hr Hu). simpl.
    rewrite build_rhs_spec, Hsolve. simpl. exact HF'. }
  split; [exact Hs|].
  intros p q. rewrite Hitems, Hl, Nat.add_sub. reflexivity.
Qed.

Lemma diis_linear_combination_witness :
  length Scenario.trials = 2%nat /\ length Scenario.residuals = 2%nat
  /\ uniform Scenario.residuals
  /\ (forall Fx, In Fx Scenario.trials -> same_shapeb Fx Scenario.e2 = true)
  /\ regular (pulay_matrix 2 Scenario.residuals)
  /\ exists coeff F',
       linalg_solve (pulay_matrix 2 Scenario.residuals) (pulay_rhs 2) = Ok coeff
       /\ length (firstn 2 coeff) = length Scenario.trials
       /\ diis_extrapolate Scenario.junk Scenario.trials Scenario.residuals Scenario.e2
          = Ok F'
       /\ same_shapeb F' Scenario.e2 = true
       /\ forall p q,
            item F' p q = weighted_sum (firstn 2 coeff) Scenario.trials p q.
Proof.
  assert (Hshape : forall Fx, In Fx Scenario.trials ->
                              same_shapeb Fx Scenario.e2 = true).
  { intros Fx HIn. simpl in HIn. destruct HIn as [<-|[<-|[]]]; reflexivity. }
  split; [reflexivity|]. split; [reflexivity|]. split; [exact scenario_uniform|].
  split; [exact Hshape|]. split; [exact scenario_regular|].
  exact (diis_linear_combination Scenario.junk Scenario.trials Scenario.residuals
           Scenario.e2 2 eq_refl eq_refl scenario_uniform Hshape scenario_regular).
Defined.

(** The scenario's numbers: coefficients [1/2, 1/2] (and multiplier [1/2]),
    extrapolated vector [[1/2, 1/2]]. *)
Example scenario_values :
  (exists coeff,
     linalg_solve (pulay_matrix 2 Scenario.residuals) (pulay_rhs 2) = Ok coeff
     /\ map this coeff = [1 # 2; 1 # 2; 1 # 2]%Q)
  /\ (exists F',
        diis_extrapolate Scenario.junk Scenario.trials Scenario.residuals Scenario.e2
        = Ok F'
        /\ map (map this) F' = [[1 # 2; 1 # 2]]%Q).
Proof.
  split; eexists; split; vm_compute; reflexivity.
Qed.

(** C9.  On a history of one entry the solve path and the short-circuit
    agree: the [2 x 2] Pulay matrix of any residual is regular, [build_B]
    builds it, the solution's first entry is exactly [1], which is the
    coefficient vector [[1]] of the short-circuit, and the step returns the
    sole trial, as the short-circuit does. *)
Theorem single_entry_solve_is_passthrough (junk : nat -> nat -> Qc) (F r : ndarray) :
  regular (pulay_matrix 1 [r])
  /\ build_B junk [F] [r] = Ok (pulay_matrix 1 [r])
  /\ (exists coeff,
        linalg_solve (pulay_matrix 1 [r]) (build_rhs 2) = Ok coeff
        /\ firstn 1 coeff = spec_single_coefficients)
  /\ diis_extrapolate junk [F] [r] F = spec_step_single F.
Proof.
  assert (HB : build_B junk [F] [r] = Ok (pulay_matrix 1 [r])).
  { apply (build_B_total junk [F] [r]); [reflexivity | apply uniform_pair]. }
  split; [apply single_system_regular|]. split; [exact HB|]. split.
  - exists [1; flat_dot r r]. split; [|reflexivity].
    change (build_rhs 2) with (build_rhs (1 + 1)).
    rewrite (build_rhs_spec 1). apply single_system_solution.
  - unfold diis_extrapolate, spec_step_single. rewrite HB.
    change (length [F] + 1)%nat with (1 + 1)%nat. rewrite (build_rhs_spec 1).
    unfold bind at 1. change (length [F]) with 1%nat.
    rewrite single_system_solution. unfold bind at 1.
    unfold diis_fock, xrange, iadd. simpl.
    assert (Hs : same_shapeb (zeros_like F) (scale 1 F) = true).
    { apply (same_shapeb_trans _ F); [apply same_shapeb_zeros_like|].
      rewrite same_shapeb_sym. apply same_shapeb_scale. }
    rewrite Hs. simpl. f_equal. apply madd_zeros_scale_one.
Qed.

(** ** Which exceptions the step raises *)

Lemma for_each_raises {S : Type} (idx : list nat) (body : nat -> S -> result S)
  (s : S) (e : exn) :
  for_each idx body s = Raise e -> exists i t, In i idx /\ body i t = Raise e.
Proof.
  revert s; induction idx as [|i idx IH]; intros s H; simpl in H.
  - discriminate.
  - destruct (body i s) as [t|e'] eqn:Hb; simpl in H.
    + destruct (IH t H) as (i' & t' & Hin & Hr). exists i', t'. split; [right|]; auto.
    + exists i, s. split; [left; reflexivity|]. congruence.
Qed.

Lemma getitem_raises {A : Type} (l : list A) (i : nat) (e : exn) :
  getitem l i = Raise e -> e = IndexError.
Proof. unfold getitem. destruct (nth_error l i); congruence. Qed.

Lemma fill_entry_raises (resid : list ndarray) (i j : nat) (B : ndarray) (e : exn) :
  fill_entry resid i j B = Raise e -> e = ValueError \/ e = IndexError.
Proof.
  unfold fill_entry, einsum_ij_ij, setitem.
  destruct (getitem resid i) as [ri|e1] eqn:H1; simpl.
  - destruct (getitem resid j) as [rj|e2] eqn:H2; simpl.
    + destruct (same_shapeb ri rj); simpl; [|intros H; left; congruence].
      destruct (_ && _); [discriminate | intros H; right; congruence].
    + intros H. right. rewrite (getitem_raises _ _ _ H2) in H. congruence.
  - intros H. right. rewrite (getitem_raises _ _ _ H1) in H. congruence.
Qed.

Lemma build_B_raises (junk : nat -> nat -> Qc) (trials resid : list ndarray) (e : exn) :
  build_B junk trials resid = Raise e -> e = ValueError \/ e = IndexError.
Proof.
  unfold build_B, fill_B. intros H.
  apply for_each_raises in H. destruct H as (i & B1 & _ & H).
  apply for_each_raises in H. destruct H as (j & B2 & _ & H).
  exact (fill_entry_raises _ _ _ _ _ H).
Qed.

Lemma linalg_solve_raises (B : ndarray) (rhs : vector) (e : exn) :
  linalg_solve B rhs = Raise e -> e = LinAlgError \/ e = ValueError.
Proof.
  unfold linalg_solve.
  destruct (negb (squareb B)); [intros H; left; congruence|].
  destruct (negb _); [intros H; right; congruence|].
  destruct (gauss _ _); [discriminate | intros H; left; congruence].
Qed.

Lemma diis_fock_raises (coeff : vector) (trials : list ndarray) (F : ndarray) (e : exn) :
  diis_fock coeff trials F = Raise e -> e = ValueError \/ e = IndexError.
Proof.
  unfold diis_fock. intros H.
  apply for_each_raises in H. destruct H as (x & acc & _ & H).
  destruct (getitem coeff x) as [c|e1] eqn:H1; simpl in H.
  - destruct (getitem trials x) as [Fx|e2] eqn:H2; simpl in H.
    + unfold iadd in H. destruct (same_shapeb _ _); [discriminate|].
      left. congruence.
    + right. rewrite (getitem_raises _ _ _ H2) in H. congruence.
  - right. rewrite (getitem_raises _ _ _ H1) in H. congruence.
Qed.

(** The step raises NumPy's and Python's exceptions only. *)
Lemma diis_extrapolate_raises (junk : nat -> nat -> Qc)
  (trials resid : list ndarray) (F : ndarray) (e : exn) :
  diis_extrapolate junk trials resid F = Raise e ->
  e = LinAlgError \/ e = ValueError \/ e = IndexError.
Proof.
  unfold diis_extrapolate. intros H.
  destruct (build_B junk trials resid) as [B|e1] eqn:HB; simpl in H.
  - destruct (linalg_solve B _) as [c|e2] eqn:Hc; simpl in H.
    + destruct (diis_fock_raises _ _ _ _ H); auto.
    + injection H as ->. destruct (linalg_solve_raises _ _ _ Hc); auto.
  - injection H as ->. destruct (build_B_raises _ _ _ _ HB); auto.
Qed.

(** ** The loop *)

Section DriverFacts.

Variable build_fock : ndarray -> ndarray.
Variable build_residual : ndarray -> ndarray -> ndarray.
Variable rhf_energy : ndarray -> ndarray -> Qc.
Variable rms : ndarray -> Qc.
Variable new_density : ndarray -> ndarray.
Variable junk : nat -> nat -> Qc.

Local Abbreviation body :=
  (scf_body build_fock build_residual rhf_energy rms new_density junk).
Local Abbreviation loop_over :=
  (scf_for build_fock build_residual rhf_energy rms new_density junk).
Local Abbreviation prefix :=
  (scf_prefix build_fock build_residual rhf_energy rms new_density junk).
Local Abbreviation trial := (trial_of build_fock).
Local Abbreviation residual := (residual_of build_fock build_residual).
Local Abbreviation energy := (energy_of build_fock rhf_energy).
Local Abbreviation test := (pass_converged build_fock build_residual rhf_energy rms).

(** The three ways out of a pass. *)
Lemma scf_body_cases (i : nat) (s : scf_state) :
  let Fl := F_list s ++ [trial s] in
  let Rl := DIIS_RESID s ++ [residual s] in
  (test s = true
   /\ body i s = (mk_state i (D s) (energy s) (E_old s) Fl Rl, Broke))
  \/ (test s = false
      /\ exists e,
           (if (2 <=? i)%nat then diis_extrapolate junk Fl Rl (trial s)
            else Ok (trial s)) = Raise e
           /\ body i s = (mk_state i (D s) (energy s) (energy s) Fl Rl, Raised e))
  \/ (test s = false
      /\ exists F',
           (if (2 <=? i)%nat then diis_extrapolate junk Fl Rl (trial s)
            else Ok (trial s)) = Ok F'
           /\ body i s
              = (mk_state i (new_density F') (energy s) (energy s) Fl Rl,
                 if (i =? MAXITER)%nat then Raised MaxIterExceeded else Continue)).
Proof.
  intros Fl Rl. subst Fl Rl.
  unfold scf_body, pass_converged, energy_of, residual_of, trial_of.
  destruct (converged _ _); [left; split; reflexivity|].
  right.
  destruct (if (2 <=? i)%nat then _ else _) as [F'|e].
  - right. split; [reflexivity|]. exists F'. split; [reflexivity|].
    destruct (i =? MAXITER)%nat; reflexivity.
  - left. split; [reflexivity|]. exists e. split; reflexivity.
Qed.

(** Every pass, however it ends, has appended its trial and its residual
    and recorded its number. *)
Lemma scf_body_appends (i : nat) (s : scf_state) :
  F_list (fst (body i s)) = F_list s ++ [trial s]
  /\ DIIS_RESID (fst (body i s)) = DIIS_RESID s ++ [residual s]
  /\ scf_iter (fst (body i s)) = i.
Proof.
  destruct (scf_body_cases i s) as [[_ H]|[[_ (e & _ & H)]|[_ (F' & _ & H)]]];
    rewrite H; simpl; auto.
Qed.

Lemma scf_body_Broke (i : nat) (s s' : scf_state) :
  body i s = (s', Broke) ->
  converged (SCF_E s' - E_old s') (rms (last (DIIS_RESID s') [])) = true.
Proof.
  intros Hb.
  destruct (scf_body_cases i s) as [[Ht H]|[[_ (e & _ & H)]|[_ (F' & _ & H)]]];
    rewrite H in Hb.
  - injection Hb as <-. simpl. rewrite last_last. exact Ht.
  - discriminate.
  - destruct (i =? MAXITER)%nat; discriminate.
Qed.

Lemma scf_body_MaxIter (i : nat) (s s' : scf_state) :
  body i s = (s', Raised MaxIterExceeded) -> i = MAXITER.
Proof.
  intros Hb.
  destruct (scf_body_cases i s) as [[Ht H]|[[_ (e & He & H)]|[_ (F' & _ & H)]]];
    rewrite H in Hb.
  - discriminate.
  - injection Hb as _ ->. exfalso.
    destruct (2 <=? i)%nat; [|discriminate].
    destruct (diis_extrapolate_raises _ _ _ _ _ He) as [?|[?|?]]; discriminate.
  - destruct (i =? MAXITER)%nat eqn:Hi; [|discriminate].
    apply Nat.eqb_eq. exact Hi.
Qed.


Lemma scf_for_app (l1 l2 : list nat) (s : scf_state) :
  loop_over (l1 ++ l2) s
  = match loop_over l1 s with
    | (s', Continue) => loop_over l2 s'
    | r => r
    end.
Proof.
  revert s; induction l1 as [|i l1 IH]; intros s; simpl.
  - reflexivity.
  - destruct (body i s) as [s' [| |e]]; auto.
Qed.

Lemma scf_for_Broke (l : list nat) (s s' : scf_state) :
  loop_over l s = (s', Broke) ->
  converged (SCF_E s' - E_old s') (rms (last (DIIS_RESID s') [])) = true.
Proof.
  revert s; induction l as [|i l IH]; intros s H; simpl in H.
  - discriminate.
  - destruct (body i s) as [s1 [| |e]] eqn:Hb.
    + apply (IH s1 H).
    + injection H as <-. apply (scf_body_Broke i s s1 Hb).
    + discriminate.
Qed.

Lemma scf_for_MaxIter (l : list nat) (s s' : scf_state) :
  loop_over l s = (s', Raised MaxIterExceeded) -> scf_iter s' = MAXITER.
Proof.
  revert s; induction l as [|i l IH]; intros s H; simpl in H.
  - discriminate.
  - destruct (body i s) as [s1 [| |e]] eqn:Hb.
    + apply (IH s1 H).
    + discriminate.
    + injection H as <- ->.
      rewrite <- (scf_body_MaxIter i s s1 Hb).
      pose proof (scf_body_appends i s) as (_ & _ & Hi). rewrite Hb in Hi. exact Hi.
Qed.

(** No pass numbered [MAXITER] falls through to a next one. *)
Lemma scf_for_stops_at_MAXITER (l : list nat) (s : scf_state) :
  In MAXITER l -> snd (loop_over l s) <> Continue.
Proof.
  revert s; induction l as [|i l IH]; intros s Hin; simpl.
  - destruct Hin.
  - destruct (body i s) as [s1 [| |e]] eqn:Hb; simpl; try discriminate.
    destruct Hin as [->|Hin]; [|apply IH; exact Hin].
    exfalso.
    destruct (scf_body_cases MAXITER s)
      as [[_ H]|[[_ (e & _ & H)]|[_ (F' & _ & H)]]];
      rewrite H in Hb; discriminate.
Qed.

(** The history along a run of consecutive passes: it only grows at its
    end, by one pair for each pass begun, and the pass counter counts
    it. *)
Lemma scf_for_history (len : nat) : forall (start : nat) (s s' : scf_state) (sig : signal),
  loop_over (seq start len) s = (s', sig) ->
  start = (scf_iter s + 1)%nat ->
  length (F_list s) = scf_iter s -> length (DIIS_RESID s) = scf_iter s ->
  length (F_list s') = scf_iter s'
  /\ length (DIIS_RESID s') = scf_iter s'
  /\ (scf_iter s' <= scf_iter s + len)%nat
  /\ (sig = Continue -> scf_iter s' = (scf_iter s + len)%nat)
  /\ (sig <> Continue -> (scf_iter s < scf_iter s')%nat)
  /\ exists Fs Rs, F_list s' = F_list s ++ Fs /\ DIIS_RESID s' = DIIS_RESID s ++ Rs.
Proof.
  induction len as [|len IH]; intros start s s' sig Hrun Hstart HF HR; simpl in Hrun.
  - injection Hrun as <- <-.
    refine (conj HF (conj HR (conj _ (conj _ (conj _ _))))); try lia; try congruence.
    exists [], []. rewrite !app_nil_r. split; reflexivity.
  - pose proof (scf_body_appends start s) as (HF1 & HR1 & Hi1).
    destruct (body start s) as [s1 sig1] eqn:Hb. simpl in HF1, HR1, Hi1.
    assert (HlF : length (F_list s1) = scf_iter s1)
      by (rewrite HF1, length_app; simpl; lia).
    assert (HlR : length (DIIS_RESID s1) = scf_iter s1)
      by (rewrite HR1, length_app; simpl; lia).
    destruct sig1 as [| |e].
    + destruct (IH (S start) s1 s' sig Hrun ltac:(lia) HlF HlR)
        as (H1 & H2 & H3 & H4 & H5 & Fs & Rs & H6 & H7).
      refine (conj H1 (conj H2 (conj _ (conj _ (conj _ _))))); try lia.
      * intros Hc. rewrite (H4 Hc). lia.
      * intros Hc. specialize (H5 Hc). lia.
      * exists ([trial s] ++ Fs), ([residual s] ++ Rs).
        rewrite !app_assoc, <- HF1, <- HR1. split; assumption.
    + injection Hrun as <- <-.
      refine (conj HlF (conj HlR (conj _ (conj _ (conj _ _)))));
        try lia; try discriminate.
      exists [trial s], [residual s]. split; assumption.
    + injection Hrun as <- <-.
      refine (conj HlF (conj HlR (conj _ (conj _ (conj _ _)))));
        try lia; try discriminate.
      exists [trial s], [residual s]. split; assumption.
Qed.

Lemma firstn_seq (k start len : nat) :
  firstn k (seq start len) = seq start (Nat.min k len).
Proof.
  revert start len; induction k as [|k IH]; intros start [|len]; simpl;
    try reflexivity.
  f_equal. apply IH.
Qed.

(** The state after the first [k] passes. *)
Lemma scf_prefix_history (D0 : ndarray) (k : nat) (s : scf_state) (sig : signal) :
  (k <= MAXITER)%nat -> prefix k D0 = (s, sig) ->
  length (F_list s) = scf_iter s
  /\ length (DIIS_RESID s) = scf_iter s
  /\ (scf_iter s <= k)%nat
  /\ (sig = Continue -> scf_iter s = k)
  /\ (sig <> Continue -> (0 < scf_iter s)%nat).
Proof.
  intros Hk Hrun. unfold scf_prefix in Hrun.
  rewrite firstn_seq, Nat.min_l in Hrun by exact Hk.
  destruct (scf_for_history k 1 (initial_state D0) s sig Hrun eq_refl eq_refl eq_refl)
    as (H1 & H2 & H3 & H4 & H5 & _).
  simpl in H3, H4, H5. auto.
Qed.

Lemma converged_iff (dE dRMS : Qc) :
  converged dE dRMS = true <-> Qcabs dE < E_conv /\ dRMS < D_conv.
Proof.
  unfold converged, Qcltb. rewrite andb_true_iff, !Qclt_alt.
  split; intros [H1 H2].
  - destruct (Qcabs dE ?= E_conv), (dRMS ?= D_conv); try discriminate; auto.
  - rewrite H1, H2. auto.
Qed.

(** C4.  In a run of the loop, a pass that finds the history empty (which
    is the pass numbered 1) builds no matrix and solves nothing: unless
    the convergence test breaks the loop, the new density is computed
    from the trial itself, and the history then holds that one pair. *)
Theorem first_pass_uses_trial_unchanged (D0 : ndarray) (k : nat) (s : scf_state) :
  (k < MAXITER)%nat -> prefix k D0 = (s, Continue) -> F_list s = [] ->
  body (k + 1) s
  = if test s
    then (mk_state 1 (D s) (energy s) (E_old s) [trial s] [residual s], Broke)
    else (mk_state 1 (new_density (trial s)) (energy s) (energy s)
            [trial s] [residual s], Continue).
Proof.
  intros Hk Hrun Hempty.
  destruct (scf_prefix_history D0 k s Continue ltac:(lia) Hrun)
    as (HF & HR & _ & Hcount & _).
  specialize (Hcount eq_refl). rewrite Hempty in HF. simpl in HF.
  assert (Hk0 : k = 0%nat) by lia. rewrite Hk0.
  assert (HRl : DIIS_RESID s = []).
  { destruct (DIIS_RESID s); [reflexivity|]. simpl in HR. lia. }
  change (0 + 1)%nat with 1%nat.
  destruct (scf_body_cases 1 s)
    as [[Ht H]|[[Ht (e & He & H)]|[Ht (F' & HF' & H)]]];
    rewrite H, Ht, ?Hempty, ?HRl.
  - reflexivity.
  - discriminate.
  - injection HF' as <-. reflexivity.
Qed.

(** C6, as the code has it.  Appending a pair compares no shapes and
    cannot fail: whatever the shapes of the two arrays and of the entries
    already stored, [append_pair] returns the two lists with the trial and
    the residual stored at their ends, one entry longer each and unchanged
    before that.  Every pass leaves the history in that state, with its
    own trial and residual as the pair. *)
Theorem append_accepts_any_shape (i : nat) (s : scf_state) :
  (F_list (fst (body i s)), DIIS_RESID (fst (body i s)))
  = append_pair (trial s) (residual s) (F_list s, DIIS_RESID s)
  /\ forall (F diis_r : ndarray) (Fl Rl : list ndarray),
       exists Fl' Rl',
         append_pair F diis_r (Fl, Rl) = (Fl', Rl')
         /\ length Fl' = S (length Fl) /\ length Rl' = S (length Rl)
         /\ nth_error Fl' (length Fl) = Some F
         /\ nth_error Rl' (length Rl) = Some diis_r
         /\ (forall k, (k < length Fl)%nat -> nth_error Fl' k = nth_error Fl k)
         /\ (forall k, (k < length Rl)%nat -> nth_error Rl' k = nth_error Rl k).
Proof.
  destruct (scf_body_appends i s) as (HF & HR & _).
  split; [unfold append_pair; rewrite HF, HR; reflexivity|].
  intros F diis_r Fl Rl. exists (Fl ++ [F]), (Rl ++ [diis_r]).
  split; [reflexivity|].
  split; [rewrite length_app; simpl; lia|].
  split; [rewrite length_app; simpl; lia|].
  split; [rewrite nth_error_app2, Nat.sub_diag by lia; reflexivity|].
  split; [rewrite nth_error_app2, Nat.sub_diag by lia; reflexivity|].
  split; intros k Hk; apply nth_error_app1; exact Hk.
Qed.

(** C8.  After the first [k] passes of a run the two lists have the same
    length, which is the number of passes begun: [k] when none of them
    left the loop.  The history of an earlier moment of the run is a
    prefix of the later one: pairs are added at the end and none is
    removed or moved. *)
Theorem history_grows_in_step (D0 : ndarray) (k : nat) (s : scf_state)
  (sig : signal) :
  (k <= MAXITER)%nat -> prefix k D0 = (s, sig) ->
  length (F_list s) = length (DIIS_RESID s)
  /\ length (F_list s) = scf_iter s
  /\ (scf_iter s <= k)%nat
  /\ (sig = Continue -> length (F_list s) = k)
  /\ forall j sj, (j <= k)%nat -> prefix j D0 = (sj, Continue) ->
       exists Fs Rs,
         F_list s = F_list sj ++ Fs /\ DIIS_RESID s = DIIS_RESID sj ++ Rs
         /\ length Fs = length Rs.
Proof.
  intros Hk Hrun.
  destruct (scf_prefix_history D0 k s sig Hk Hrun) as (HF & HR & Hle & Hc & _).
  split; [congruence|]. split; [exact HF|]. split; [exact Hle|].
  split; [intros H; rewrite HF; auto|].
  intros j sj Hj Hrunj.
  destruct (scf_prefix_history D0 j sj Continue ltac:(lia) Hrunj)
    as (HFj & HRj & _ & Hcj & _).
  specialize (Hcj eq_refl).
  unfold scf_prefix in Hrun, Hrunj.
  rewrite firstn_seq, Nat.min_l in Hrun, Hrunj by lia.
  replace k with (j + (k - j))%nat in Hrun by lia.
  rewrite seq_app, scf_for_app, Hrunj in Hrun.
  destruct (scf_for_history (k - j) (1 + j) sj s sig Hrun ltac:(lia) HFj HRj)
    as (_ & _ & _ & _ & _ & Fs & Rs & H1 & H2).
  exists Fs, Rs. split; [exact H1|]. split; [exact H2|].
  assert (Hl : length (F_list s) = length (DIIS_RESID s)) by congruence.
  rewrite H1, H2, !length_app in Hl. lia.
Qed.

(** C10.  The loop ends after at most [MAXITER = 40] passes, and never by
    running off its range: either a pass broke out of it, its convergence
    test having held ([|dE| < 1e-6] and [dRMS < 1e-3]), and the cell
    reports the energy; or an exception left the cell, which reports no
    energy, and that exception is [MaxIterExceeded] only at pass 40.  The
    test comes first in every pass: a pass that converges breaks, whatever
    its number and whatever the extrapolation would have done, and pass 40
    raises when it does not converge. *)
Theorem scf_loop_bounded (D0 : ndarray) (s : scf_state) (sig : signal) :
  scf_loop build_fock build_residual rhf_energy rms new_density junk D0 = (s, sig) ->
  (1 <= scf_iter s <= 40)%nat
  /\ length (F_list s) = scf_iter s
  /\ ((sig = Broke
       /\ Qcabs (SCF_E s - E_old s) < Q2Qc (1 # 1000000)
       /\ rms (last (DIIS_RESID s) []) < Q2Qc (1 # 1000)
       /\ scf_cell build_fock build_residual rhf_energy rms new_density junk D0
          = Ok (SCF_E s))
      \/ (exists e,
            sig = Raised e
            /\ scf_cell build_fock build_residual rhf_energy rms new_density junk D0
               = Raise e
            /\ (e = MaxIterExceeded -> scf_iter s = 40%nat)))
  /\ (forall i t, test t = true -> snd (body i t) = Broke)
  /\ (forall t, test t = false -> exists e, snd (body 40 t) = Raised e).
Proof.
  intros Hrun.
  cut ((1 <= scf_iter s <= 40)%nat
       /\ length (F_list s) = scf_iter s
       /\ ((sig = Broke
            /\ Qcabs (SCF_E s - E_old s) < Q2Qc (1 # 1000000)
            /\ rms (last (DIIS_RESID s) []) < Q2Qc (1 # 1000)
            /\ scf_cell build_fock build_residual rhf_energy rms new_density junk D0
               = Ok (SCF_E s))
           \/ (exists e,
                 sig = Raised e
                 /\ scf_cell build_fock build_residual rhf_energy rms new_density
                      junk D0 = Raise e
                 /\ (e = MaxIterExceeded -> scf_iter s = 40%nat)))).
  { intros (H1 & H2 & H3). split; [exact H1|]. split; [exact H2|].
    split; [exact H3|]. split.
    - intros i t Ht.
      destruct (scf_body_cases i t)
        as [[_ H]|[[Ht' _]|[Ht' _]]]; [rewrite H; reflexivity | congruence ..].
    - intros t Ht.
      destruct (scf_body_cases 40 t)
        as [[Ht' _]|[[_ (e & _ & H)]|[_ (F' & _ & H)]]]; [congruence | ..].
      + exists e. rewrite H. reflexivity.
      + exists MaxIterExceeded. rewrite H. reflexivity. }
  assert (Hp : prefix MAXITER D0 = (s, sig)).
  { unfold scf_prefix. rewrite firstn_seq, Nat.min_id. exact Hrun. }
  destruct (scf_prefix_history D0 MAXITER s sig (le_n _) Hp)
    as (HF & _ & Hle & _ & Hpos).
  assert (Hstop : sig <> Continue).
  { pose proof (scf_for_stops_at_MAXITER (seq 1 MAXITER) (initial_state D0)) as H.
    unfold scf_loop in Hrun. rewrite Hrun in H. apply H.
    apply in_seq. unfold MAXITER. lia. }
  specialize (Hpos Hstop).
  split; [unfold MAXITER in Hle; lia|]. split; [exact HF|].
  unfold scf_cell. rewrite Hrun. unfold scf_loop in Hrun.
  destruct sig as [| |e].
  - contradiction.
  - left. split; [reflexivity|].
    apply scf_for_Broke in Hrun. apply converged_iff in Hrun.
    destruct Hrun as [H1 H2]. auto.
  - right. exists e. split; [reflexivity|]. split; [reflexivity|].
    intros ->. apply (scf_for_MaxIter _ _ _ Hrun).
Qed.

(** C2, as the code has it.  From the second pass on, when the pass has
    not converged and [np.linalg.solve] raises on the system built from
    the history, nothing catches the exception: the step returns no
    matrix, the pass ends there, with the pair appended and no new
    density, and the loop ends with that exception. *)
Theorem solve_failure_propagates (i : nat) (s : scf_state) (B : ndarray) (e : exn) :
  (2 <= i)%nat -> test s = false ->
  build_B junk (F_list s ++ [trial s]) (DIIS_RESID s ++ [residual s]) = Ok B ->
  linalg_solve B (build_rhs (length (F_list s ++ [trial s]) + 1)) = Raise e ->
  diis_extrapolate junk (F_list s ++ [trial s]) (DIIS_RESID s ++ [residual s])
    (trial s) = Raise e
  /\ body i s
     = (mk_state i (D s) (energy s) (energy s)
          (F_list s ++ [trial s]) (DIIS_RESID s ++ [residual s]),
        Raised e)
  /\ forall rest, snd (loop_over (i :: rest) s) = Raised e.
Proof.
  intros Hi Ht HB Hsolve.
  assert (Hstep : diis_extrapolate junk (F_list s ++ [trial s])
                    (DIIS_RESID s ++ [residual s]) (trial s) = Raise e).
  { unfold diis_extrapolate. rewrite HB. unfold bind at 1.
    rewrite Hsolve. reflexivity. }
  assert (Hb : body i s
               = (mk_state i (D s) (energy s) (energy s)
                    (F_list s ++ [trial s]) (DIIS_RESID s ++ [residual s]),
                  Raised e)).
  { destruct (scf_body_cases i s)
      as [[Ht' H]|[[_ (e' & He & H)]|[_ (F' & HF' & H)]]].
    - congruence.
    - rewrite (proj2 (Nat.leb_le 2 i) Hi), Hstep in He. injection He as <-. exact H.
    - rewrite (proj2 (Nat.leb_le 2 i) Hi), Hstep in HF'. discriminate. }
  split; [exact Hstep|]. split; [exact Hb|].
  intros rest. simpl. rewrite Hb. reflexivity.
Qed.

End DriverFacts.

(** ** The claims on the worked instances *)

Lemma first_pass_uses_trial_unchanged_witness :
  (0 < MAXITER)%nat
  /\ Toy.prefix 0 Toy.D0 = (initial_state Toy.D0, Continue)
  /\ F_list (initial_state Toy.D0) = []
  /\ Toy.body (0 + 1) (initial_state Toy.D0)
     = (mk_state 1 (Toy.new_density (Toy.build_fock Toy.D0))
          (Toy.rhf_energy (Toy.build_fock Toy.D0) Toy.D0)
          (Toy.rhf_energy (Toy.build_fock Toy.D0) Toy.D0)
          [Toy.build_fock Toy.D0]
          [Toy.build_residual (Toy.build_fock Toy.D0) Toy.D0],
        Continue).
Proof.
  assert (Hlt : (0 < MAXITER)%nat) by (unfold MAXITER; lia).
  split; [exact Hlt|]. split; [reflexivity|]. split; [reflexivity|].
  pose proof (first_pass_uses_trial_unchanged
                Toy.build_fock Toy.build_residual Toy.rhf_energy Toy.rms
                Toy.new_density Toy.junk Toy.D0 0 (initial_state Toy.D0)
                Hlt eq_refl eq_refl) as H.
  replace (pass_converged Toy.build_fock Toy.build_residual Toy.rhf_energy Toy.rms
             (initial_state Toy.D0)) with false in H
    by (vm_compute; reflexivity).
  exact H.
Defined.

Lemma history_grows_in_step_witness :
  (2 <= MAXITER)%nat
  /\ Toy.prefix 2 Toy.D0 = (fst (Toy.prefix 2 Toy.D0), Continue)
  /\ length (F_list (fst (Toy.prefix 2 Toy.D0))) = 2%nat
  /\ length (DIIS_RESID (fst (Toy.prefix 2 Toy.D0))) = 2%nat.
Proof.
  assert (Hle : (2 <= MAXITER)%nat) by (unfold MAXITER; lia).
  assert (Hrun : Toy.prefix 2 Toy.D0 = (fst (Toy.prefix 2 Toy.D0), Continue))
    by (vm_compute; reflexivity).
  split; [exact Hle|]. split; [exact Hrun|].
  destruct (history_grows_in_step
              Toy.build_fock Toy.build_residual Toy.rhf_energy Toy.rms
              Toy.new_density Toy.junk Toy.D0 2 _ Continue Hle Hrun)
    as (Heq & _ & _ & Hk & _).
  split; [exact (Hk eq_refl)|]. rewrite <- Heq. exact (Hk eq_refl).
Defined.

Lemma scf_loop_bounded_witness :
  Toy.loop Toy.D0 = (fst (Toy.loop Toy.D0), Broke)
  /\ (1 <= scf_iter (fst (Toy.loop Toy.D0)) <= 40)%nat
  /\ Toy.cell Toy.D0 = Ok (SCF_E (fst (Toy.loop Toy.D0))).
Proof.
  assert (Hrun : Toy.loop Toy.D0 = (fst (Toy.loop Toy.D0), Broke))
    by (vm_compute; reflexivity).
  split; [exact Hrun|].
  destruct (scf_loop_bounded
              Toy.build_fock Toy.build_residual Toy.rhf_energy Toy.rms
              Toy.new_density Toy.junk Toy.D0 _ Broke Hrun)
    as (Hbound & _ & [(_ & _ & _ & Hcell)|(e & He & _)] & _).
  - split; [exact Hbound | exact Hcell].
  - discriminate He.
Defined.

(** Both ends of the loop are met: [Toy] breaks out at its third pass, and
    [Unconverged] runs to pass 40, where the exception is raised. *)
Example scf_loop_both_ends :
  (scf_iter (fst (Toy.loop Toy.D0)) = 3%nat /\ snd (Toy.loop Toy.D0) = Broke)
  /\ (scf_iter (fst (Unconverged.loop Unconverged.D0)) = 40%nat
      /\ snd (Unconverged.loop Unconverged.D0) = Raised MaxIterExceeded
      /\ Unconverged.cell Unconverged.D0 = Raise MaxIterExceeded).
Proof.
  split; [split | split; [|split]]; vm_compute; reflexivity.
Qed.

(** The Pulay matrix of two identical residuals sends [(1, -1, 0)] to
    zero. *)
Lemma stalled_singular :
  singular (pulay_matrix 2 [Stalled.build_residual [] []; Stalled.build_residual [] []]).
Proof.
  exists [1; -(1); 0]. split; [reflexivity|]. split.
  - intros H. apply (f_equal (map this)) in H. vm_compute in H. discriminate H.
  - apply vector_this_inj. vm_compute. reflexivity.
Qed.

Lemma stalled_built :
  build_B Stalled.junk
    (F_list Stalled.s1 ++ [trial_of Stalled.build_fock Stalled.s1])
    (DIIS_RESID Stalled.s1
     ++ [residual_of Stalled.build_fock Stalled.build_residual Stalled.s1])
  = Ok (pulay_matrix 2 [Stalled.build_residual [] []; Stalled.build_residual [] []]).
Proof.
  apply (build_B_total Stalled.junk
           (F_list Stalled.s1 ++ [trial_of Stalled.build_fock Stalled.s1])
           (DIIS_RESID Stalled.s1
            ++ [residual_of Stalled.build_fock Stalled.build_residual Stalled.s1])).
  - reflexivity.
  - intros a b Ha Hb. simpl in Ha, Hb.
    destruct Ha as [<-|[<-|[]]], Hb as [<-|[<-|[]]]; reflexivity.
Qed.

Lemma solve_failure_propagates_witness :
  (2 <= 2)%nat
  /\ pass_converged Stalled.build_fock Stalled.build_residual Stalled.rhf_energy
       Stalled.rms Stalled.s1 = false
  /\ linalg_solve
       (pulay_matrix 2 [Stalled.build_residual [] []; Stalled.build_residual [] []])
       (build_rhs
          (length (F_list Stalled.s1 ++ [trial_of Stalled.build_fock Stalled.s1]) + 1))
     = Raise LinAlgError
  /\ Stalled.body 2 Stalled.s1
     = (mk_state 2 [[1; 0]] (-(1)) (-(1)) [[[1; 0]]; [[1; 0]]] [[[1; 0]]; [[1; 0]]],
        Raised LinAlgError)
  /\ snd (Stalled.loop Stalled.D0) = Raised LinAlgError.
Proof.
  assert (Ht : pass_converged Stalled.build_fock Stalled.build_residual
                 Stalled.rhf_energy Stalled.rms Stalled.s1 = false)
    by (vm_compute; reflexivity).
  assert (Hsolve : linalg_solve
            (pulay_matrix 2 [Stalled.build_residual [] []; Stalled.build_residual [] []])
            (build_rhs
               (length (F_list Stalled.s1 ++ [trial_of Stalled.build_fock Stalled.s1]) + 1))
          = Raise LinAlgError)
    by (vm_compute; reflexivity).
  split; [lia|]. split; [exact Ht|]. split; [exact Hsolve|].
  destruct (solve_failure_propagates
              Stalled.build_fock Stalled.build_residual Stalled.rhf_energy
              Stalled.rms Stalled.new_density Stalled.junk 2 Stalled.s1 _ _
              (le_n 2) Ht stalled_built Hsolve) as (_ & Hb & Hloop).
  split; [exact Hb|].
  specialize (Hloop (seq 3 38)).
  assert (Hfirst : Stalled.body 1 (initial_state Stalled.D0) = (Stalled.s1, Continue))
    by (vm_compute; reflexivity).
  unfold Stalled.loop, scf_loop.
  change (seq 1 MAXITER) with (1%nat :: 2%nat :: seq 3 38).
  change (scf_for Stalled.build_fock Stalled.build_residual Stalled.rhf_energy
            Stalled.rms Stalled.new_density Stalled.junk
            (1%nat :: 2%nat :: seq 3 38) (initial_state Stalled.D0))
    with (match Stalled.body 1 (initial_state Stalled.D0) with
          | (s', Continue) =>
              scf_for Stalled.build_fock Stalled.build_residual Stalled.rhf_energy
                Stalled.rms Stalled.new_density Stalled.junk
                (2%nat :: seq 3 38) s'
          | r => r
          end).
  rewrite Hfirst. exact Hloop.
Defined.

(** C2, as stated, fails.  The driver [Stalled] meets two identical
    residuals at its second pass: the Pulay matrix is singular, the step
    raises [LinAlgError] instead of returning the latest trial, the pass
    does not continue, and the cell ends with that exception. *)
Lemma duplicate_residuals_abort :
  DIIS_RESID (fst (Stalled.body 2 Stalled.s1)) = [[[1; 0]]; [[1; 0]]]
  /\ singular (pulay_matrix 2 [[[1; 0]]; [[1; 0]]])
  /\ diis_extrapolate Stalled.junk [[[1; 0]]; [[1; 0]]] [[[1; 0]]; [[1; 0]]] [[1; 0]]
     = Raise LinAlgError
  /\ diis_extrapolate Stalled.junk [[[1; 0]]; [[1; 0]]] [[[1; 0]]; [[1; 0]]] [[1; 0]]
     <> Ok [[1; 0]]
  /\ snd (Stalled.body 2 Stalled.s1) = Raised LinAlgError
  /\ snd (Stalled.body 2 Stalled.s1) <> Continue
  /\ Stalled.cell Stalled.D0 = Raise LinAlgError.
Proof.
  split; [vm_compute; reflexivity|].
  split; [exact stalled_singular|].
  split; [vm_compute; reflexivity|].
  split; [vm_compute; discriminate|].
  split; [vm_compute; reflexivity|].
  split; [vm_compute; discriminate|].
  vm_compute; reflexivity.
Qed.

(** C6, as stated, fails.  A trial of shape [(1, 2)] is appended with a
    residual of shape [(2, 1)]: the pair is stored.  A pair of shape
    [(1, 3)] is appended to a history whose entries have shape [(1, 2)]:
    the pair is stored. *)
Lemma mismatched_pair_is_stored :
  shape Mismatched.trial = (1%nat, 2%nat)
  /\ shape Mismatched.residual = (2%nat, 1%nat)
  /\ append_pair Mismatched.trial Mismatched.residual ([], [])
     = ([Mismatched.trial], [Mismatched.residual])
  /\ map shape Mismatched.earlier = [(1%nat, 2%nat)]
  /\ shape Mismatched.wide = (1%nat, 3%nat)
  /\ append_pair Mismatched.wide Mismatched.wide
       (Mismatched.earlier, Mismatched.earlier)
     = ([[[1; 0]]; Mismatched.wide], [[[1; 0]]; Mismatched.wide]).
Proof.
  repeat split.
Qed.

(** * Further properties of the notebook *)

(** ** The memory check *)

Lemma Qcltb_lt (x y : Qc) : Qcltb x y = true <-> x < y.
Proof.
  unfold Qcltb. rewrite Qclt_alt. destruct (x ?= y); split; congruence.
Qed.

(** The size of the tensor exceeds the limit from [126^4] entries on. *)
Lemma I_size_exceeds (nbf : nat) :
  numpy_memory < I_size nbf <-> (250000000 < Z.of_nat nbf ^ 4)%Z.
Proof.
  unfold Qclt, numpy_memory, I_size, Qcmult, Q2Qc, this.
  rewrite !Qred_correct.
  generalize (Z.of_nat nbf ^ 4)%Z. intros z.
  unfold Qlt, Qmult, inject_Z, Qnum, Qden. lia.
Qed.

Lemma fourth_power_threshold (nbf : nat) :
  (250000000 < Z.of_nat nbf ^ 4)%Z <-> (126 <= nbf)%nat.
Proof.
  split; intros H.
  - destruct (Nat.lt_ge_cases nbf 126) as [Hlt|Hge]; [|exact Hge]. exfalso.
    assert (Hpow : (Z.of_nat nbf ^ 4 <= 125 ^ 4)%Z)
      by (apply Z.pow_le_mono_l; lia).
    change (125 ^ 4)%Z with 244140625%Z in Hpow. lia.
  - assert (Hpow : (126 ^ 4 <= Z.of_nat nbf ^ 4)%Z)
      by (apply Z.pow_le_mono_l; lia).
    change (126 ^ 4)%Z with 252047376%Z in Hpow. lia.
Qed.

Lemma eri_memory_check_threshold_aux (nbf : nat) :
  eri_memory_check nbf = EnoughMemory <-> (nbf <= 125)%nat.
Proof.
  unfold eri_memory_check.
  destruct (Qcltb numpy_memory (I_size nbf)) eqn:Hb.
  - apply Qcltb_lt, I_size_exceeds, fourth_power_threshold in Hb.
    split; [discriminate | lia].
  - split; [intros _ | reflexivity].
    destruct (Nat.lt_ge_cases 125 nbf) as [Hgt|Hle]; [|exact Hle]. exfalso.
    assert (Ht : Qcltb numpy_memory (I_size nbf) = true)
      by (apply Qcltb_lt, I_size_exceeds, fourth_power_threshold; lia).
    congruence.
Qed.

(** X1.  The memory check lets a basis of up to 125 functions through and
    refuses every larger one, whose tensor would take more than 2 GB. *)
Theorem eri_memory_check_threshold (nbf : nat) :
  (eri_memory_check nbf = EnoughMemory <-> (nbf <= 125)%nat)
  /\ (eri_memory_check nbf = EnoughMemory <-> I_size nbf <= numpy_memory).
Proof.
  split; [apply eri_memory_check_threshold_aux|].
  unfold eri_memory_check.
  destruct (Qcltb numpy_memory (I_size nbf)) eqn:Hb.
  - apply Qcltb_lt in Hb. split; [discriminate|].
    intros Hle. exfalso. exact (Qclt_not_le _ _ Hb Hle).
  - split; [intros _ | reflexivity].
    destruct (Qclt_le_dec numpy_memory (I_size nbf)) as [Hlt|Hle]; [|exact Hle].
    apply Qcltb_lt in Hlt. congruence.
Qed.

Lemma footprint_exceeds (nbf : nat) :
  numpy_memory < memory_footprint nbf <-> (114 <= nbf)%nat.
Proof.
  unfold Qclt, numpy_memory, memory_footprint, I_size, Qcmult, Q2Qc, this.
  rewrite !Qred_correct.
  assert (Hz : (2 < inject_Z (Z.of_nat nbf ^ 4) * (8 # 1000000000) * (3 # 2))%Q
               <-> (166666666 < Z.of_nat nbf ^ 4)%Z).
  { generalize (Z.of_nat nbf ^ 4)%Z. intros z.
    unfold Qlt, Qmult, inject_Z, Qnum, Qden. lia. }
  rewrite Hz. split; intros H.
  - destruct (Nat.lt_ge_cases nbf 114) as [Hlt|Hge]; [|exact Hge]. exfalso.
    assert (Hpow : (Z.of_nat nbf ^ 4 <= 113 ^ 4)%Z)
      by (apply Z.pow_le_mono_l; lia).
    change (113 ^ 4)%Z with 163047361%Z in Hpow. lia.
  - assert (Hpow : (114 ^ 4 <= Z.of_nat nbf ^ 4)%Z)
      by (apply Z.pow_le_mono_l; lia).
    change (114 ^ 4)%Z with 168896016%Z in Hpow. lia.
Qed.

(** X2.  The check tests the size of the tensor and reports another
    number, the footprint: the bases of 114 to 125 functions are exactly
    those whose estimated footprint exceeds the limit and which pass all
    the same; and the footprint an exception reports is above 3 GB, the
    limit it reports being 2. *)
Theorem eri_memory_check_reports_footprint (nbf : nat) :
  ((114 <= nbf <= 125)%nat
   <-> eri_memory_check nbf = EnoughMemory /\ numpy_memory < memory_footprint nbf)
  /\ (forall f l, eri_memory_check nbf = MemoryExceeded f l ->
        l = Q2Qc 2 /\ f = I_size nbf * Q2Qc (3 # 2) /\ Q2Qc 3 < f).
Proof.
  split.
  - rewrite eri_memory_check_threshold_aux, footprint_exceeds. lia.
  - intros f l H. unfold eri_memory_check in H.
    destruct (Qcltb numpy_memory (I_size nbf)) eqn:Hb; [|discriminate].
    injection H as <- <-. split; [reflexivity|]. split; [reflexivity|].
    apply Qcltb_lt in Hb. revert Hb.
    unfold Qclt, numpy_memory, memory_footprint, I_size, Qcmult, Q2Qc, this.
    rewrite !Qred_correct.
    generalize (Z.of_nat nbf ^ 4)%Z. intros z.
    unfold Qlt, Qmult, inject_Z, Qnum, Qden. lia.
Qed.

(** ** The density matrix *)

Lemma take_columns_rectangular (n m ndocc : nat) (C : ndarray) :
  rectangular n m C -> rectangular n (Nat.min ndocc m) (take_columns ndocc C).
Proof.
  intros [Hl Hrows]. unfold take_columns. split.
  - rewrite length_map. exact Hl.
  - rewrite Forall_map. eapply Forall_impl; [|exact Hrows].
    intros row Hrow. simpl. rewrite length_firstn, Hrow. reflexivity.
Qed.

Lemma inner_agree_rectangular (n n' m : nat) (a b : ndarray) :
  rectangular n m a -> rectangular n' m b -> inner_agree a b = true.
Proof.
  intros [_ Ha] [_ Hb]. unfold inner_agree.
  rewrite Forall_forall in Ha, Hb.
  apply forallb_forall. intros ra Hra. apply forallb_forall. intros rb Hrb.
  apply Nat.eqb_eq. rewrite (Ha ra Hra), (Hb rb Hrb). reflexivity.
Qed.

(** The array of all inner products of the rows of [a] with the rows of
    [b]. *)
Lemma gram_rectangular (a b : ndarray) :
  rectangular (length a) (length b)
    (map (fun ra => map (fun rb => dot ra rb) b) a).
Proof.
  split.
  - apply length_map.
  - rewrite Forall_map. apply Forall_forall. intros ra _. apply length_map.
Qed.

Lemma gram_item (a b : ndarray) (p q : nat) :
  (p < length a)%nat -> (q < length b)%nat ->
  item (map (fun ra => map (fun rb => dot ra rb) b) a) p q
  = dot (nth p a []) (nth q b []).
Proof.
  intros Hp Hq. unfold item.
  rewrite (nth_indep _ [] ((fun ra => map (fun rb => dot ra rb) b) []))
    by (rewrite length_map; exact Hp).
  rewrite (map_nth (fun ra => map (fun rb => dot ra rb) b)).
  rewrite (nth_indep _ 0 ((fun rb => dot (nth p a []) rb) []))
    by (rewrite length_map; exact Hq).
  apply (map_nth (fun rb => dot (nth p a []) rb)).
Qed.

Lemma gram_symmetric (a : ndarray) (p q : nat) :
  item (map (fun ra => map (fun rb => dot ra rb) a) a) p q
  = item (map (fun ra => map (fun rb => dot ra rb) a) a) q p.
Proof.
  pose proof (gram_rectangular a a) as Hrect.
  destruct (Nat.lt_ge_cases p (length a)) as [Hp|Hp];
    [|rewrite !(item_outside _ _ _ _ _ Hrect) by lia; reflexivity].
  destruct (Nat.lt_ge_cases q (length a)) as [Hq|Hq];
    [|rewrite !(item_outside _ _ _ _ _ Hrect) by lia; reflexivity].
  rewrite !gram_item by assumption. apply dot_comm.
Qed.

Lemma build_density_Ok (n m ndocc : nat) (C : ndarray) :
  rectangular n m C ->
  build_density C ndocc
  = Ok (map (fun ra => map (fun rb => dot ra rb) (take_columns ndocc C))
          (take_columns ndocc C)).
Proof.
  intros HC. unfold build_density, einsum_pi_qi.
  pose proof (take_columns_rectangular n m ndocc C HC) as Ht.
  rewrite (inner_agree_rectangular _ _ _ _ _ Ht Ht). reflexivity.
Qed.

Lemma take_columns_row (ndocc : nat) (C : ndarray) (p : nat) :
  nth p (take_columns ndocc C) [] = firstn ndocc (nth p C []).
Proof.
  unfold take_columns.
  rewrite <- (map_nth (firstn ndocc) C [] p). rewrite firstn_nil. reflexivity.
Qed.

(** X3.  The density built from any [n x m] coefficient array is an
    [n x n] array, symmetric, whose entry [(p, q)] is the sum over the
    first [ndocc] columns [i] of [C[p,i] * C[q,i]]. *)
Theorem density_symmetric (n m ndocc : nat) (C : ndarray) :
  rectangular n m C ->
  exists D,
    build_density C ndocc = Ok D
    /\ rectangular n n D
    /\ (forall p q, item D p q = item D q p)
    /\ (forall p q, (p < n)%nat -> (q < n)%nat ->
          item D p q = dot (firstn ndocc (nth p C [])) (firstn ndocc (nth q C []))).
Proof.
  intros HC. eexists. split; [apply (build_density_Ok n m); exact HC|].
  assert (Hl : length (take_columns ndocc C) = n).
  { unfold take_columns. rewrite length_map. apply HC. }
  split.
  { pose proof (gram_rectangular (take_columns ndocc C) (take_columns ndocc C)) as H.
    rewrite Hl in H. exact H. }
  split; [intros p q; apply gram_symmetric|].
  intros p q Hp Hq. rewrite gram_item by lia.
  rewrite !take_columns_row. reflexivity.
Qed.

Lemma density_symmetric_witness :
  rectangular 2 2 Toy.D0
  /\ exists D,
       build_density Toy.D0 1 = Ok D
       /\ rectangular 2 2 D
       /\ item D 0 1 = item D 1 0.
Proof.
  assert (HC : rectangular 2 2 Toy.D0).
  { split; [reflexivity|]. repeat constructor. }
  split; [exact HC|].
  destruct (density_symmetric 2 2 1 Toy.D0 HC) as (D & HD & Hrect & Hsym & _).
  exists D. split; [exact HD|]. split; [exact Hrect|]. apply Hsym.
Defined.

Lemma firstn_agree (ndocc : nat) (u v : vector) :
  length u = length v ->
  (forall i, (i < ndocc)%nat -> nth i u 0 = nth i v 0) ->
  firstn ndocc u = firstn ndocc v.
Proof.
  revert u v; induction ndocc as [|k IH]; intros [|a u] [|b v] Hl H; simpl in *;
    try discriminate; try reflexivity.
  f_equal.
  - exact (H 0%nat (Nat.lt_0_succ k)).
  - apply IH; [lia|]. intros i Hi. exact (H (S i) ltac:(lia)).
Qed.

(** X4.  Only the occupied orbitals enter the density: two coefficient
    arrays of one shape that agree on their first [ndocc] columns give the
    same density. *)
Theorem density_occupied_only (n m ndocc : nat) (C C' : ndarray) :
  rectangular n m C -> rectangular n m C' ->
  (forall p i, (p < n)%nat -> (i < ndocc)%nat -> item C p i = item C' p i) ->
  build_density C ndocc = build_density C' ndocc.
Proof.
  intros HC HC' Hagree.
  rewrite (build_density_Ok n m ndocc C HC), (build_density_Ok n m ndocc C' HC').
  assert (Heq : take_columns ndocc C = take_columns ndocc C').
  { apply (nth_ext _ _ [] []).
    - unfold take_columns. rewrite !length_map. destruct HC, HC'. congruence.
    - intros p Hp. unfold take_columns in Hp. rewrite length_map in Hp.
      rewrite !take_columns_row.
      assert (Hpn : (p < n)%nat) by (destruct HC; lia).
      apply firstn_agree.
      + rewrite (rectangular_row n m C p HC Hpn), (rectangular_row n m C' p HC' Hpn).
        reflexivity.
      + intros i Hi. exact (Hagree p i Hpn Hi). }
  rewrite Heq. reflexivity.
Qed.

Lemma density_occupied_only_witness :
  rectangular 2 2 [[1; 0]; [0; 1]] /\ rectangular 2 2 [[1; Q2Qc 5]; [0; Q2Qc 7]]
  /\ build_density [[1; 0]; [0; 1]] 1 = build_density [[1; Q2Qc 5]; [0; Q2Qc 7]] 1.
Proof.
  assert (H1 : rectangular 2 2 [[1; 0]; [0; 1]])
    by (split; [reflexivity | repeat constructor]).
  assert (H2 : rectangular 2 2 [[1; Q2Qc 5]; [0; Q2Qc 7]])
    by (split; [reflexivity | repeat constructor]).
  split; [exact H1|]. split; [exact H2|].
  apply (density_occupied_only 2 2 1 _ _ H1 H2).
  intros p i Hp Hi.
  assert (Hi0 : i = 0%nat) by lia. subst i.
  destruct p as [|[|p]]; [reflexivity | reflexivity | lia].
Defined.

(** X5.  The slice [C[:, :ndocc]] at its bounds: with no occupied orbital
    the density is the zero array of shape [(n, n)], and an [ndocc] beyond
    the number of columns takes them all. *)
Theorem density_slice_bounds (n m ndocc : nat) (C : ndarray) :
  rectangular n m C ->
  build_density C 0 = Ok (repeat (repeat 0 n) n)
  /\ ((m <= ndocc)%nat -> build_density C ndocc = build_density C m).
Proof.
  intros HC. split.
  - rewrite (build_density_Ok n m 0 C HC). f_equal.
    destruct HC as [Hl _]. subst n. unfold take_columns.
    rewrite !map_map. simpl.
    assert (Hrow : map (fun _ : list Qc => 0) C = repeat 0 (length C)).
    { clear. induction C as [|r C IH]; simpl; [reflexivity | f_equal; exact IH]. }
    rewrite map_map. simpl. rewrite Hrow.
    clear. generalize (repeat 0 (length C)). intros z.
    induction C as [|r C IH]; simpl; [reflexivity | f_equal; exact IH].
  - intros Hle. unfold build_density.
    assert (Heq : take_columns ndocc C = take_columns m C).
    { unfold take_columns. apply map_ext_in. intros row Hin.
      destruct HC as [_ Hrows]. rewrite Forall_forall in Hrows.
      rewrite !firstn_all2 by (rewrite (Hrows row Hin); lia). reflexivity. }
    rewrite Heq. reflexivity.
Qed.

Lemma density_slice_bounds_witness :
  rectangular 2 2 Toy.D0
  /\ build_density Toy.D0 0 = Ok (repeat (repeat 0 2%nat) 2%nat)
  /\ build_density Toy.D0 5 = build_density Toy.D0 2.
Proof.
  assert (HC : rectangular 2 2 Toy.D0).
  { split; [reflexivity|]. repeat constructor. }
  split; [exact HC|].
  destruct (density_slice_bounds 2 2 5 Toy.D0 HC) as [H0 H5].
  split; [exact H0 | apply H5; lia].
Defined.

Lemma Qc_square_nonneg (x : Qc) : 0 <= x * x.
Proof.
  unfold Qcle, Qcmult, Q2Qc, this. rewrite !Qred_correct.
  destruct x as [[a b] Hx]. unfold Qle, Qmult, Qnum, Qden. simpl.
  rewrite Z.mul_1_r. apply Z.square_nonneg.
Qed.

Lemma Qc_sum_nonneg (x y : Qc) : 0 <= x -> 0 <= y -> 0 <= x + y.
Proof.
  intros Hx Hy. replace 0 with (0 + 0) by ring.
  apply Qcplus_le_compat; assumption.
Qed.

Lemma dot_self_nonneg (v : vector) : 0 <= dot v v.
Proof.
  induction v as [|a v IH]; simpl.
  - apply Qcle_refl.
  - apply Qc_sum_nonneg; [apply Qc_square_nonneg | exact IH].
Qed.

(** X6.  The diagonal of a density is never negative. *)
Theorem density_diagonal_nonneg (C : ndarray) (ndocc : nat) (D : ndarray) (p : nat) :
  build_density C ndocc = Ok D -> 0 <= item D p p.
Proof.
  unfold build_density, einsum_pi_qi.
  destruct (inner_agree _ _); [|discriminate]. intros H. injection H as <-.
  destruct (Nat.lt_ge_cases p (length (take_columns ndocc C))) as [Hp|Hp].
  - rewrite gram_item by exact Hp. apply dot_self_nonneg.
  - rewrite (item_outside _ _ _ _ _ (gram_rectangular _ _)) by lia.
    apply Qcle_refl.
Qed.

Lemma density_diagonal_nonneg_witness :
  build_density Toy.D0 1 = Ok [[1; 0]; [0; 0]]
  /\ 0 <= item [[1; 0]; [0; 0]] 0 0.
Proof.
  assert (H : build_density Toy.D0 1 = Ok [[1; 0]; [0; 0]]).
  { unfold build_density, einsum_pi_qi. simpl. repeat f_equal; apply Qc_is_canon; reflexivity. }
  split; [exact H|].
  exact (density_diagonal_nonneg Toy.D0 1 _ 0 H).
Defined.

(** ** What [np.empty] leaves in the matrix *)

(** Two runs of a loop on related states end alike, when each pass does. *)
Lemma for_each_rel {S : Type} (R : S -> S -> Prop) (body : nat -> S -> result S)
  (idx : list nat) :
  (forall i s s', R s s' ->
     (exists t t', body i s = Ok t /\ body i s' = Ok t' /\ R t t')
     \/ (exists e, body i s = Raise e /\ body i s' = Raise e)) ->
  forall s s', R s s' ->
    (exists t t', for_each idx body s = Ok t /\ for_each idx body s' = Ok t' /\ R t t')
    \/ (exists e, for_each idx body s = Raise e /\ for_each idx body s' = Raise e).
Proof.
  intros Hbody. induction idx as [|i idx IH]; intros s s' HR; simpl.
  - left. exists s, s'. auto.
  - destruct (Hbody i s s' HR) as [(t & t' & -> & -> & Ht)|(e & -> & ->)]; simpl.
    + apply IH. exact Ht.
    + right. exists e. auto.
Qed.

Lemma setitem_rectangular (r c : nat) (B : ndarray) (i j : nat) (v : Qc) :
  rectangular r c B ->
  setitem B i j v
  = if (i <? r)%nat && (j <? c)%nat then Ok (upd_nth i (set_nth j v) B)
    else Raise IndexError.
Proof.
  intros HB. unfold setitem. destruct (HB) as [Hl _]. rewrite Hl.
  destruct (i <? r)%nat eqn:Hi; [|reflexivity].
  apply Nat.ltb_lt in Hi. rewrite (rectangular_row r c B i HB Hi). reflexivity.
Qed.

(** One assignment ends alike on two arrays of one shape. *)
Lemma fill_entry_shape_only (r c : nat) (resid : list ndarray) (i j : nat)
  (B B' : ndarray) :
  rectangular r c B /\ rectangular r c B' ->
  (exists t t', fill_entry resid i j B = Ok t /\ fill_entry resid i j B' = Ok t'
                /\ (rectangular r c t /\ rectangular r c t'))
  \/ (exists e, fill_entry resid i j B = Raise e /\ fill_entry resid i j B' = Raise e).
Proof.
  intros [HB HB']. unfold fill_entry.
  destruct (getitem resid i) as [ri|e]; simpl; [|right; exists e; auto].
  destruct (getitem resid j) as [rj|e]; simpl; [|right; exists e; auto].
  destruct (einsum_ij_ij ri rj) as [v|e]; simpl; [|right; exists e; auto].
  rewrite (setitem_rectangular r c B i j v HB), (setitem_rectangular r c B' i j v HB').
  destruct ((i <? r)%nat && (j <? c)%nat).
  - left. eexists; eexists. split; [reflexivity|]. split; [reflexivity|].
    split; apply rectangular_upd; assumption.
  - right. exists IndexError. auto.
Qed.

(** [build_B] ends alike whatever [np.empty] found. *)
Lemma build_B_ends_alike (junk junk' : nat -> nat -> Qc)
  (trials resid : list ndarray) :
  (exists B B', build_B junk trials resid = Ok B
                /\ build_B junk' trials resid = Ok B')
  \/ (exists e, build_B junk trials resid = Raise e
                /\ build_B junk' trials resid = Raise e).
Proof.
  unfold build_B, fill_B. rewrite Nat.add_sub.
  set (N := length trials).
  match goal with
  | |- (exists B B', for_each ?idx ?body ?B0 = _ /\ for_each _ _ ?B0' = _) \/ _ =>
      destruct (for_each_rel
                  (fun B B' => rectangular (N + 1) (N + 1) B
                               /\ rectangular (N + 1) (N + 1) B')
                  body idx) with (s := B0) (s' := B0')
        as [(t & t' & Ht & Ht' & _)|(e0 & He & He')]
  end.
  - intros i s s' HR. apply for_each_rel; [|exact HR].
    intros j u u' HR'. apply fill_entry_shape_only. exact HR'.
  - split; apply rectangular_upd, set_col_rectangular, set_row_rectangular,
      np_empty_rectangular.
  - left. exists t, t'. auto.
  - right. exists e0. auto.
Qed.

Lemma build_B_ignores_junk (junk junk' : nat -> nat -> Qc)
  (trials resid : list ndarray) :
  build_B junk trials resid = build_B junk' trials resid.
Proof.
  destruct (build_B_ends_alike junk junk' trials resid)
    as [(B & B' & H & H')|(e & H & H')]; rewrite H, H'; [|reflexivity].
  rewrite (build_B_Ok _ _ _ _ H), (build_B_Ok _ _ _ _ H'). reflexivity.
Qed.

Section Uninitialised.

Variable build_fock : ndarray -> ndarray.
Variable build_residual : ndarray -> ndarray -> ndarray.
Variable rhf_energy : ndarray -> ndarray -> Qc.
Variable rms : ndarray -> Qc.
Variable new_density : ndarray -> ndarray.

(** X7.  Nothing that [np.empty] left in memory is ever read: the matrix
    (or the exception) of [build_B], every pass of the loop, and the
    outcome of the whole cell are the same whatever the uninitialised
    array held. *)
Theorem uninitialised_memory_never_read (junk junk' : nat -> nat -> Qc) :
  (forall trials resid, build_B junk trials resid = build_B junk' trials resid)
  /\ (forall i s,
        scf_body build_fock build_residual rhf_energy rms new_density junk i s
        = scf_body build_fock build_residual rhf_energy rms new_density junk' i s)
  /\ (forall D0,
        scf_cell build_fock build_residual rhf_energy rms new_density junk D0
        = scf_cell build_fock build_residual rhf_energy rms new_density junk' D0).
Proof.
  assert (Hbody : forall i s,
    scf_body build_fock build_residual rhf_energy rms new_density junk i s
    = scf_body build_fock build_residual rhf_energy rms new_density junk' i s).
  { intros i s. unfold scf_body, diis_extrapolate.
    rewrite (build_B_ignores_junk junk junk'). reflexivity. }
  split; [intros; apply build_B_ignores_junk|]. split; [exact Hbody|].
  intros D0. unfold scf_cell, scf_loop.
  assert (Hfor : forall l s,
    scf_for build_fock build_residual rhf_energy rms new_density junk l s
    = scf_for build_fock build_residual rhf_energy rms new_density junk' l s).
  { induction l as [|i l IH]; intros s; simpl; [reflexivity|].
    rewrite Hbody.
    destruct (scf_body _ _ _ _ _ junk' i s) as [s' [| |e]]; auto. }
  rewrite Hfor. reflexivity.
Qed.

End Uninitialised.

(** ** The outcomes of the extrapolation step *)

(** X8.  On a history of as many residuals as trials, the residuals of one
    shape and the trials of the shape of [F], the matrix is built and no
    shape or index is ever wrong: the step returns whenever
    [np.linalg.solve] returns, and an exception that leaves the step is
    the one [np.linalg.solve] raised, which is [LinAlgError]. *)
Theorem diis_step_outcome (junk : nat -> nat -> Qc)
  (trials resid : list ndarray) (F : ndarray) (N : nat) :
  length trials = N -> length resid = N -> uniform resid ->
  (forall Fx, In Fx trials -> same_shapeb Fx F = true) ->
  exists B,
    build_B junk trials resid = Ok B
    /\ (forall coeff, linalg_solve B (build_rhs (N + 1)) = Ok coeff ->
          exists F',
            diis_fock coeff trials F = Ok F'
            /\ diis_extrapolate junk trials resid F = Ok F'
            /\ same_shapeb F' F = true)
    /\ (forall e, linalg_solve B (build_rhs (N + 1)) = Raise e ->
          diis_extrapolate junk trials resid F = Raise e)
    /\ (forall e, diis_extrapolate junk trials resid F = Raise e ->
          linalg_solve B (build_rhs (N + 1)) = Raise e /\ e = LinAlgError).
Proof.
  intros Ht Hr Hu Hshape. subst N.
  pose proof (build_B_total junk trials resid Hr Hu) as HB.
  assert (Hsq := pulay_matrix_square (length trials) resid).
  assert (Hrl : length (pulay_rhs (length trials))
                = length (pulay_matrix (length trials) resid))
    by (rewrite pulay_matrix_length; apply pulay_rhs_length).
  assert (Hstep : diis_extrapolate junk trials resid F
                  = (coeff <- linalg_solve (pulay_matrix (length trials) resid)
                                (pulay_rhs (length trials)) ;;
                     diis_fock coeff trials F)).
  { unfold diis_extrapolate. rewrite HB. simpl. rewrite build_rhs_spec. reflexivity. }
  exists (pulay_matrix (length trials) resid). split; [exact HB|].
  rewrite build_rhs_spec, Hstep.
  destruct (linalg_solve (pulay_matrix (length trials) resid)
              (pulay_rhs (length trials))) as [coeff|e] eqn:Hsolve.
  - (* the solve returned: the combination goes through *)
    destruct (solve_sound _ _ _ Hsolve) as [Hl _]. rewrite pulay_matrix_length in Hl.
    destruct (diis_fock_total coeff trials F Hl Hshape) as [F' HF'].
    destruct (diis_fock_Ok _ _ _ _ HF') as (_ & Hs & _).
    split.
    { intros c Hc. injection Hc as <-. exists F'.
      split; [exact HF'|]. split; [exact HF' | exact Hs]. }
    split; [discriminate|].
    intros e He. simpl in He. rewrite HF' in He. discriminate.
  - (* the solve raised *)
    split; [discriminate|]. split.
    { intros e' He'. injection He' as <-. reflexivity. }
    intros e' He'. simpl in He'. injection He' as <-.
    split; [reflexivity|].
    destruct (linalg_solve_raises _ _ _ Hsolve) as [He|He]; [exact He|].
    exfalso. subst e. unfold linalg_solve in Hsolve.
    rewrite Hsq in Hsolve. simpl in Hsolve.
    rewrite (proj2 (Nat.eqb_eq _ _) Hrl) in Hsolve. simpl in Hsolve.
    destruct (gauss _ _); discriminate.
Qed.

Lemma diis_step_outcome_witness :
  length Scenario.trials = 2%nat /\ length Scenario.residuals = 2%nat
  /\ uniform Scenario.residuals
  /\ (forall Fx, In Fx Scenario.trials -> same_shapeb Fx Scenario.e2 = true)
  /\ exists coeff F',
       linalg_solve (pulay_matrix 2 Scenario.residuals) (build_rhs (2 + 1)) = Ok coeff
       /\ diis_extrapolate Scenario.junk Scenario.trials Scenario.residuals Scenario.e2
          = Ok F'
       /\ same_shapeb F' Scenario.e2 = true.
Proof.
  assert (Hshape : forall Fx, In Fx Scenario.trials ->
                              same_shapeb Fx Scenario.e2 = true).
  { intros Fx HIn. simpl in HIn. destruct HIn as [<-|[<-|[]]]; reflexivity. }
  split; [reflexivity|]. split; [reflexivity|]. split; [exact scenario_uniform|].
  split; [exact Hshape|].
  destruct (diis_step_outcome Scenario.junk Scenario.trials Scenario.residuals
              Scenario.e2 2 eq_refl eq_refl scenario_uniform Hshape)
    as (B & HB & Hret & _).
  assert (HBv : B = pulay_matrix 2 Scenario.residuals).
  { pose proof scenario_built as H. rewrite HB in H. injection H as ->. reflexivity. }
  rewrite HBv in Hret.
  assert (Hsolve : exists coeff,
            linalg_solve (pulay_matrix 2 Scenario.residuals) (build_rhs (2 + 1))
            = Ok coeff).
  { eexists. vm_compute. reflexivity. }
  destruct Hsolve as [coeff Hsolve].
  destruct (Hret coeff Hsolve) as (F' & _ & HF' & Hs).
  exists coeff, F'. split; [exact Hsolve|]. split; [exact HF' | exact Hs].
Defined.

(** ** A history of one repeated trial *)

Lemma weighted_sum_common (T : ndarray) (p q : nat) :
  forall (c : vector) (trials : list ndarray),
  Forall (eq T) trials -> length c = length trials ->
  weighted_sum c trials p q = vsum c * item T p q.
Proof.
  induction c as [|cx c IH]; intros [|Fx trials] Hall Hl; simpl in *;
    try discriminate.
  - unfold vsum; simpl. ring.
  - inversion Hall as [|? ? HT Hrest]; subst.
    rewrite (IH trials Hrest) by lia. unfold vsum; simpl. ring.
Qed.

(** X9.  In exact arithmetic, when every trial of the history is one array
    [T], of the shape of [F], the step returns [T] itself, whatever the
    residuals, as long as their Pulay matrix is regular: the coefficients
    sum to one. *)
Theorem diis_keeps_common_trial (junk : nat -> nat -> Qc)
  (trials resid : list ndarray) (F T : ndarray) :
  Forall (eq T) trials -> same_shapeb T F = true ->
  length resid = length trials -> uniform resid ->
  regular (pulay_matrix (length trials) resid) ->
  diis_extrapolate junk trials resid F = Ok T.
Proof.
  intros Hall HTF Hr Hu Hreg.
  assert (Hshape : forall Fx, In Fx trials -> same_shapeb Fx F = true).
  { intros Fx HIn. rewrite Forall_forall in Hall. rewrite <- (Hall Fx HIn). exact HTF. }
  destruct (solve_complete (pulay_matrix (length trials) resid)
              (pulay_rhs (length trials))) as [coeff Hsolve].
  { apply pulay_matrix_square. }
  { rewrite pulay_matrix_length. apply pulay_rhs_length. }
  { exact Hreg. }
  destruct (solve_sound _ _ _ Hsolve) as [Hl Heq]. rewrite pulay_matrix_length in Hl.
  destruct (diis_fock_total coeff trials F Hl Hshape) as [F' HF'].
  destruct (diis_fock_Ok _ _ _ _ HF') as (_ & Hs & Hitems).
  unfold diis_extrapolate. rewrite (build_B_total junk trials resid Hr Hu). simpl.
  rewrite build_rhs_spec, Hsolve. simpl. rewrite HF'. f_equal.
  apply same_shape_ext.
  - apply (same_shapeb_trans _ F); [exact Hs|]. rewrite same_shapeb_sym. exact HTF.
  - intros p q. rewrite Hitems, Hl, Nat.add_sub.
    rewrite (weighted_sum_common T p q _ _ Hall)
      by (rewrite length_firstn; lia).
    rewrite (pulay_constraint _ resid coeff Hl Heq). ring.
Qed.

Lemma diis_keeps_common_trial_witness :
  Forall (eq Scenario.e1) [Scenario.e1; Scenario.e1]
  /\ same_shapeb Scenario.e1 Scenario.e1 = true
  /\ length Scenario.residuals = length [Scenario.e1; Scenario.e1]
  /\ uniform Scenario.residuals
  /\ regular (pulay_matrix (length [Scenario.e1; Scenario.e1]) Scenario.residuals)
  /\ diis_extrapolate Scenario.junk [Scenario.e1; Scenario.e1] Scenario.residuals
       Scenario.e1 = Ok Scenario.e1.
Proof.
  assert (Hall : Forall (eq Scenario.e1) [Scenario.e1; Scenario.e1])
    by (repeat constructor).
  split; [exact Hall|]. split; [reflexivity|]. split; [reflexivity|].
  split; [exact scenario_uniform|]. split; [exact scenario_regular|].
  exact (diis_keeps_common_trial Scenario.junk [Scenario.e1; Scenario.e1]
           Scenario.residuals Scenario.e1 Scenario.e1 Hall eq_refl eq_refl
           scenario_uniform scenario_regular).
Defined.

(** ** The coefficients as a least-squares solution *)

Lemma same_shapeb_concat_length (a b : ndarray) :
  same_shapeb a b = true -> length (concat a) = length (concat b).
Proof.
  revert b; induction a as [|r a IH]; intros [|s b] H; simpl in *;
    try discriminate; try reflexivity.
  apply andb_true_iff in H. destruct H as [Hrs Hab]. apply Nat.eqb_eq in Hrs.
  rewrite !length_app, Hrs, (IH b Hab). reflexivity.
Qed.

Lemma dot_vadd_l (a b w : vector) :
  length a = length b -> dot (vadd a b) w = dot a w + dot b w.
Proof.
  revert b w; induction a as [|x a IH]; intros [|y b] w H; simpl in *;
    try discriminate.
  - ring.
  - destruct w as [|z w]; [ring|]. rewrite IH by lia. ring.
Qed.

Lemma dot_scale_l (k : Qc) (a w : vector) :
  dot (map (Qcmult k) a) w = k * dot a w.
Proof.
  revert w; induction a as [|x a IH]; intros [|z w]; simpl; try ring.
  rewrite IH. ring.
Qed.

Lemma vcomb_length (m : nat) (vs : list vector) :
  Forall (fun v => length v = m) vs ->
  forall c, length (vcomb m c vs) = m.
Proof.
  intros Hvs. induction Hvs as [|v vs Hv Hrest IH]; intros [|cx c]; simpl;
    try apply zeros_length.
  rewrite vadd_length; rewrite length_map; [exact Hv | rewrite IH; exact Hv].
Qed.

(** The inner product with a combination is the combination of the inner
    products. *)
Lemma dot_vcomb_l (m : nat) (vs : list vector) (w : vector) :
  Forall (fun v => length v = m) vs ->
  forall c, dot (vcomb m c vs) w = dot c (map (fun v => dot v w) vs).
Proof.
  intros Hvs. induction Hvs as [|v vs Hv Hrest IH]; intros [|cx c]; simpl;
    try (rewrite dot_comm; apply dot_zeros_r).
  rewrite dot_vadd_l
    by (rewrite length_map, (vcomb_length m vs Hrest); exact Hv).
  rewrite dot_scale_l, IH. reflexivity.
Qed.

Lemma dot_constant_r (k : Qc) {A : Type} (l : list A) :
  forall c, length c = length l -> dot c (map (fun _ => k) l) = k * vsum c.
Proof.
  induction l as [|x l IH]; intros [|cx c] H; simpl in *; try discriminate.
  - unfold vsum; simpl. ring.
  - rewrite IH by lia. unfold vsum; simpl. ring.
Qed.

Lemma map_nth_seq {A B : Type} (f : A -> B) (d : A) (l : list A) :
  map (fun j => f (nth j l d)) (seq 0 (length l)) = map f l.
Proof.
  apply (nth_ext _ _ (f d) (f d)).
  - rewrite !length_map, length_seq. reflexivity.
  - intros i Hi. rewrite length_map, length_seq in Hi.
    rewrite (nth_map_seq (fun j => f (nth j l d))) by exact Hi.
    rewrite (map_nth f). reflexivity.
Qed.

(** The squared norm of a difference. *)
Lemma norm2_difference (a b : vector) :
  length a = length b ->
  dot (axpy 1 a b) (axpy 1 a b) = dot b b - dot a b - dot a b + dot a a.
Proof.
  intros H.
  rewrite dot_axpy by exact H. rewrite !dot_axpy_r by (symmetry; exact H).
  rewrite (dot_comm b a). ring.
Qed.

(** The rows of the Pulay equation above the constraint: the combination
    of the residuals by the solution has the same inner product, the
    multiplier, with every residual. *)
Lemma pulay_stationary (resid : list ndarray) (c : vector) (l : Qc) :
  length c = length resid ->
  mat_vec (pulay_matrix (length resid) resid) (c ++ [l])
  = pulay_rhs (length resid) ->
  forall i, (i < length resid)%nat ->
    dot (map (fun v => dot (concat (nth i resid [])) v) (map (@concat Qc) resid)) c = l.
Proof.
  intros Hc Heq i Hi.
  unfold pulay_matrix, pulay_rhs in Heq. rewrite mat_vec_app in Heq.
  simpl in Heq. apply app_inj_tail in Heq. destruct Heq as [Hrows _].
  apply (f_equal (fun rows => nth i rows 0)) in Hrows.
  unfold mat_vec, zeros in Hrows. rewrite map_map in Hrows.
  rewrite (nth_map_seq _ _ _ _ Hi) in Hrows.
  rewrite nth_repeat_lt in Hrows by exact Hi.
  rewrite dot_app in Hrows by (rewrite length_map, length_seq; symmetry; exact Hc).
  simpl in Hrows.
  assert (Hrow : map (overlap resid i) (seq 0 (length resid))
                 = map (fun v => dot (concat (nth i resid [])) v)
                     (map (@concat Qc) resid)).
  { rewrite map_map. unfold overlap, flat_dot.
    apply (map_nth_seq (fun r => dot (concat (nth i resid [])) (concat r)) []). }
  rewrite <- Hrow.
  from_equation Hrows
    (l + (dot (map (overlap resid i) (seq 0 (length resid))) c + (- (1) * l + 0))).
Qed.

(** X10.  The coefficients the solve returns are the least-squares ones:
    among all coefficient vectors that sum to one, they give the
    combination of the residuals, read as flat vectors, its smallest
    squared norm. *)
Theorem pulay_coefficients_least_squares (junk : nat -> nat -> Qc)
  (trials resid : list ndarray) (B : ndarray) (coeff c' : vector) :
  length resid = length trials -> uniform resid ->
  build_B junk trials resid = Ok B ->
  linalg_solve B (build_rhs (length trials + 1)) = Ok coeff ->
  length c' = length trials -> vsum c' = 1 ->
  residual_norm2 (firstn (length trials) coeff) resid <= residual_norm2 c' resid.
Proof.
  intros Hr Hu HB Hsolve Hc' Hsum'.
  rewrite (build_B_Ok _ _ _ _ HB), build_rhs_spec, <- Hr in *.
  destruct (solve_sound _ _ _ Hsolve) as [Hl Heq]. rewrite pulay_matrix_length in Hl.
  pose proof (pulay_constraint _ resid coeff Hl Heq) as Hsum.
  destruct (firstn_snoc _ coeff Hl) as [l Hcoeff].
  set (c := firstn (length resid) coeff) in *.
  assert (Hc : length c = length resid)
    by (subst c; rewrite length_firstn; lia).
  rewrite Hcoeff in Heq.
  pose proof (pulay_stationary resid c l Hc Heq) as Hstat.
  unfold residual_norm2.
  set (m := length (concat (hd [] resid))).
  set (vs := map (@concat Qc) resid) in *.
  assert (Hvs : Forall (fun v => length v = m) vs).
  { subst vs m. rewrite Forall_map. apply Forall_forall. intros r Hin.
    destruct resid as [|r0 resid']; [destruct Hin|]. simpl.
    apply same_shapeb_concat_length. apply Hu; [exact Hin | left; reflexivity]. }
  set (a := vcomb m c vs). set (b := vcomb m c' vs).
  (* every residual has inner product [l] with the combination [a] *)
  assert (Ha : map (fun v => dot v a) vs = map (fun _ => l) vs).
  { apply map_ext_in. intros v Hin.
    destruct (In_nth vs v [] Hin) as (i & Hi & Hv).
    subst vs. rewrite length_map in Hi.
    rewrite <- Hv.
    change (@nil Qc) with (concat (@nil (list Qc))) at 1. rewrite map_nth.
    rewrite dot_comm. subst a. rewrite (dot_vcomb_l m _ _ Hvs).
    rewrite dot_comm. rewrite <- (Hstat i Hi). f_equal.
    apply map_ext. intros v'. apply dot_comm. }
  assert (Hlvs : length vs = length resid) by (subst vs; apply length_map).
  assert (Haa : dot a a = l).
  { unfold a at 1. rewrite (dot_vcomb_l m _ _ Hvs), Ha.
    rewrite dot_constant_r by congruence. rewrite Hsum. ring. }
  assert (Hba : dot a b = l).
  { rewrite dot_comm. unfold b at 1. rewrite (dot_vcomb_l m _ _ Hvs), Ha.
    rewrite dot_constant_r by congruence. rewrite Hsum'. ring. }
  pose proof (dot_self_nonneg (axpy 1 a b)) as Hpos.
  rewrite norm2_difference in Hpos
    by (subst a b; rewrite !(vcomb_length m vs Hvs); reflexivity).
  rewrite Hba, Haa in Hpos.
  apply Qcle_minus_iff. rewrite Haa.
  replace (dot b b + - l) with (dot b b - l - l + l) by ring. exact Hpos.
Qed.

Lemma pulay_coefficients_least_squares_witness :
  length Scenario.residuals = length Scenario.trials
  /\ uniform Scenario.residuals
  /\ build_B Scenario.junk Scenario.trials Scenario.residuals
     = Ok (pulay_matrix 2 Scenario.residuals)
  /\ (exists coeff,
        linalg_solve (pulay_matrix 2 Scenario.residuals)
          (build_rhs (length Scenario.trials + 1)) = Ok coeff
        /\ residual_norm2 (firstn (length Scenario.trials) coeff) Scenario.residuals
           <= residual_norm2 [1; 0] Scenario.residuals).
Proof.
  split; [reflexivity|]. split; [exact scenario_uniform|].
  split; [exact scenario_built|].
  destruct (solve_complete (pulay_matrix 2 Scenario.residuals)
              (build_rhs (length Scenario.trials + 1))
              (pulay_matrix_square 2 Scenario.residuals) eq_refl scenario_regular)
    as [coeff Hsolve].
  exists coeff. split; [exact Hsolve|].
  apply (pulay_coefficients_least_squares Scenario.junk Scenario.trials
           Scenario.residuals _ coeff [1; 0] eq_refl scenario_uniform
           scenario_built Hsolve eq_refl).
  apply Qc_is_canon. reflexivity.
Defined.

(** ** The state the loop leaves behind *)

Section FinalState.

Variable build_fock : ndarray -> ndarray.
Variable build_residual : ndarray -> ndarray -> ndarray.
Variable rhf_energy : ndarray -> ndarray -> Qc.
Variable rms : ndarray -> Qc.
Variable new_density : ndarray -> ndarray.
Variable junk : nat -> nat -> Qc.

Local Abbreviation body :=
  (scf_body build_fock build_residual rhf_energy rms new_density junk).
Local Abbreviation loop_over :=
  (scf_for build_fock build_residual rhf_energy rms new_density junk).

(** A loop that ends by [break] or by an exception ends in the state and
    with the signal of one of its passes. *)
Lemma scf_for_last_pass (l : list nat) (s s' : scf_state) (sig : signal) :
  loop_over l s = (s', sig) -> sig <> Continue ->
  exists i sp, In i l /\ body i sp = (s', sig).
Proof.
  revert s; induction l as [|i l IH]; intros s H Hsig; simpl in H.
  - injection H as _ <-. contradiction.
  - destruct (body i s) as [s1 sig1] eqn:Hb.
    destruct sig1 as [| |e].
    + destruct (IH s1 H Hsig) as (i' & sp & Hin & Hb'). exists i', sp. split; [right|]; auto.
    + injection H as <- <-. exists i, s. split; [left; reflexivity | exact Hb].
    + injection H as <- <-. exists i, s. split; [left; reflexivity | exact Hb].
Qed.

(** X11.  After a [break] the variables of the notebook belong together:
    the last trial stored is the Fock matrix of the density [D] still held,
    the last residual is its residual, and [SCF_E], which the cell reports,
    is its energy.  After [MaxIterExceeded] they do not: [scf_iter] is 40,
    [E_old] has caught up with [SCF_E], and [D] is already the density of
    the matrix that the DIIS block returns on the whole history, with the
    last trial stored as its [F]: the density of a pass that was never
    begun. *)
Theorem converged_state_consistent (D0 : ndarray) (s : scf_state) (sig : signal) :
  scf_loop build_fock build_residual rhf_energy rms new_density junk D0 = (s, sig) ->
  (sig = Broke ->
     last (F_list s) [] = build_fock (D s)
     /\ last (DIIS_RESID s) [] = build_residual (build_fock (D s)) (D s)
     /\ SCF_E s = rhf_energy (build_fock (D s)) (D s)
     /\ scf_cell build_fock build_residual rhf_energy rms new_density junk D0
        = Ok (rhf_energy (build_fock (D s)) (D s)))
  /\ (sig = Raised MaxIterExceeded ->
        scf_iter s = 40%nat
        /\ SCF_E s = E_old s
        /\ scf_cell build_fock build_residual rhf_energy rms new_density junk D0
           = Raise MaxIterExceeded
        /\ exists F',
             diis_extrapolate junk (F_list s) (DIIS_RESID s) (last (F_list s) [])
             = Ok F'
             /\ D s = new_density F').
Proof.
  intros Hrun. split; intros ->.
  - unfold scf_cell. rewrite Hrun. unfold scf_loop in Hrun.
    destruct (scf_for_last_pass _ _ _ _ Hrun ltac:(discriminate))
      as (i & sp & _ & Hb).
    destruct (scf_body_cases build_fock build_residual rhf_energy rms new_density
                junk i sp)
      as [[_ H]|[[_ (e & _ & H)]|[_ (F' & _ & H)]]]; rewrite H in Hb.
    + injection Hb as <-. simpl. rewrite !last_last.
      unfold trial_of, residual_of, energy_of. auto.
    + discriminate.
    + destruct (i =? MAXITER)%nat; discriminate.
  - unfold scf_cell. rewrite Hrun. unfold scf_loop in Hrun.
    destruct (scf_for_last_pass _ _ _ _ Hrun ltac:(discriminate))
      as (i & sp & _ & Hb).
    destruct (scf_body_cases build_fock build_residual rhf_energy rms new_density
                junk i sp)
      as [[_ H]|[[_ (e & He & H)]|[_ (F' & HF' & H)]]]; rewrite H in Hb.
    + discriminate.
    + injection Hb as _ ->. exfalso.
      destruct (2 <=? i)%nat; [|discriminate].
      destruct (diis_extrapolate_raises _ _ _ _ _ He) as [?|[?|?]]; discriminate.
    + destruct (i =? MAXITER)%nat eqn:Hi; [|discriminate].
      apply Nat.eqb_eq in Hi. subst i. change (2 <=? MAXITER)%nat with true in HF'.
      injection Hb as <-. simpl. rewrite last_last.
      split; [reflexivity|]. split; [reflexivity|]. split; [reflexivity|].
      exists F'. split; [exact HF' | reflexivity].
Qed.

End FinalState.

Lemma converged_state_consistent_witness :
  (Toy.loop Toy.D0 = (fst (Toy.loop Toy.D0), Broke)
   /\ last (F_list (fst (Toy.loop Toy.D0))) []
      = Toy.build_fock (D (fst (Toy.loop Toy.D0)))
   /\ Toy.cell Toy.D0
      = Ok (Toy.rhf_energy (Toy.build_fock (D (fst (Toy.loop Toy.D0))))
              (D (fst (Toy.loop Toy.D0)))))
  /\ (scf_loop Unconverged.build_fock Unconverged.build_residual
        Unconverged.rhf_energy Unconverged.rms Unconverged.new_density
        Unconverged.junk Unconverged.D0 = (fst (scf_loop Unconverged.build_fock Unconverged.build_residual
        Unconverged.rhf_energy Unconverged.rms Unconverged.new_density
        Unconverged.junk Unconverged.D0), Raised MaxIterExceeded)
      /\ scf_iter (fst (scf_loop Unconverged.build_fock Unconverged.build_residual
        Unconverged.rhf_energy Unconverged.rms Unconverged.new_density
        Unconverged.junk Unconverged.D0)) = 40%nat
      /\ scf_cell Unconverged.build_fock Unconverged.build_residual
           Unconverged.rhf_energy Unconverged.rms Unconverged.new_density
           Unconverged.junk Unconverged.D0
         = Raise MaxIterExceeded
      /\ exists F',
           diis_extrapolate Unconverged.junk
             (F_list (fst (scf_loop Unconverged.build_fock Unconverged.build_residual
        Unconverged.rhf_energy Unconverged.rms Unconverged.new_density
        Unconverged.junk Unconverged.D0)))
             (DIIS_RESID (fst (scf_loop Unconverged.build_fock Unconverged.build_residual
        Unconverged.rhf_energy Unconverged.rms Unconverged.new_density
        Unconverged.junk Unconverged.D0)))
             (last (F_list (fst (scf_loop Unconverged.build_fock Unconverged.build_residual
        Unconverged.rhf_energy Unconverged.rms Unconverged.new_density
        Unconverged.junk Unconverged.D0))) [])
           = Ok F'
           /\ D (fst (scf_loop Unconverged.build_fock Unconverged.build_residual
        Unconverged.rhf_energy Unconverged.rms Unconverged.new_density
        Unconverged.junk Unconverged.D0)) = Unconverged.new_density F').
Proof.
  split.
  - assert (Hrun : Toy.loop Toy.D0 = (fst (Toy.loop Toy.D0), Broke))
      by (vm_compute; reflexivity).
    split; [exact Hrun|].
    destruct (converged_state_consistent
                Toy.build_fock Toy.build_residual Toy.rhf_energy Toy.rms
                Toy.new_density Toy.junk Toy.D0 _ Broke Hrun) as [H _].
    destruct (H eq_refl) as (H1 & _ & _ & H4).
    split; [exact H1 | exact H4].
  - assert (Hrun : scf_loop Unconverged.build_fock Unconverged.build_residual
        Unconverged.rhf_energy Unconverged.rms Unconverged.new_density
        Unconverged.junk Unconverged.D0 = (fst (scf_loop Unconverged.build_fock Unconverged.build_residual
        Unconverged.rhf_energy Unconverged.rms Unconverged.new_density
        Unconverged.junk Unconverged.D0), Raised MaxIterExceeded))
      by (vm_compute; reflexivity).
    split; [exact Hrun|].
    pose proof (converged_state_consistent
                  Unconverged.build_fock Unconverged.build_residual
                  Unconverged.rhf_energy Unconverged.rms
                  Unconverged.new_density Unconverged.junk Unconverged.D0
                  (fst (scf_loop Unconverged.build_fock Unconverged.build_residual
        Unconverged.rhf_energy Unconverged.rms Unconverged.new_density
        Unconverged.junk Unconverged.D0)) (Raised MaxIterExceeded) Hrun) as [_ H].
    destruct (H eq_refl) as (H1 & _ & H3 & H4).
    split; [exact H1|]. split; [exact H3 | exact H4].
Defined.

(** ** Matrix products *)

Lemma column_length (j : nat) (b : ndarray) : length (column j b) = length b.
Proof. apply length_map. Qed.

Lemma nth_column (b : ndarray) (i j : nat) : nth i (column j b) 0 = item b i j.
Proof.
  unfold column, item.
  destruct (Nat.lt_ge_cases i (length b)) as [Hi|Hi].
  - rewrite (nth_indep _ 0 ((fun row => nth j row 0) [])) by (rewrite length_map; exact Hi).
    apply (map_nth (fun row => nth j row 0)).
  - rewrite (nth_overflow (map _ b)) by (rewrite length_map; exact Hi).
    rewrite (nth_overflow b) by exact Hi. destruct j; reflexivity.
Qed.

Lemma column_symmetric (n : nat) (X : ndarray) (j : nat) :
  rectangular n n X -> symmetric X -> (j < n)%nat -> column j X = nth j X [].
Proof.
  intros HX Hsym Hj. apply (nth_ext _ _ 0 0).
  - rewrite column_length, (rectangular_row n n X j HX Hj). apply HX.
  - intros i _. rewrite nth_column. apply Hsym.
Qed.

Lemma column_antisymmetric (n : nat) (M : ndarray) (j : nat) :
  rectangular n n M -> antisymmetric M -> (j < n)%nat ->
  column j M = map Qcopp (nth j M []).
Proof.
  intros HM Hanti Hj. apply (nth_ext _ _ 0 (- 0)).
  - rewrite column_length, length_map, (rectangular_row n n M j HM Hj). apply HM.
  - intros i _. rewrite nth_column, (map_nth Qcopp). apply Hanti.
Qed.

Lemma nth_scaled (k : Qc) (v : vector) (l : nat) :
  nth l (map (Qcmult k) v) 0 = k * nth l v 0.
Proof.
  revert l; induction v as [|x v IH]; intros [|l]; simpl; try ring.
  apply IH.
Qed.

(** Entry [l] of a combination of the rows of an array. *)
Lemma nth_vcomb (n : nat) (vs : ndarray) (l : nat) :
  Forall (fun v => length v = n) vs -> (l < n)%nat ->
  forall c, nth l (vcomb n c vs) 0 = dot c (column l vs).
Proof.
  intros Hvs Hl. induction Hvs as [|v vs Hv Hrest IH]; intros [|cx c]; simpl;
    try (unfold zeros; apply nth_repeat_lt; exact Hl).
  rewrite nth_vadd
    by (rewrite length_map, (vcomb_length n vs Hrest); exact Hv).
  rewrite nth_scaled, IH. reflexivity.
Qed.

Lemma hd_length (n : nat) (b : ndarray) :
  rectangular n n b -> length (hd [] b) = n.
Proof.
  intros [Hl Hrows]. destruct b as [|r b]; simpl in *; [exact Hl|].
  inversion Hrows; assumption.
Qed.

(** The rows of a product are combinations of the rows of the second
    factor. *)
Lemma np_dot_rows (n : nat) (a b : ndarray) :
  rectangular n n a -> rectangular n n b ->
  np_dot a b = Ok (map (fun ra => vcomb n ra b) a).
Proof.
  intros Ha Hb. unfold np_dot.
  assert (Hcheck : forallb (fun ra => (length ra =? length b)%nat) a = true).
  { apply forallb_forall. intros ra Hin. apply Nat.eqb_eq.
    destruct Ha as [_ Ha], Hb as [Hb _]. rewrite Forall_forall in Ha.
    rewrite (Ha ra Hin). symmetry. exact Hb. }
  rewrite Hcheck, (hd_length n b Hb). f_equal.
  apply map_ext. intros ra.
  apply (nth_ext _ _ 0 0).
  - rewrite length_map, length_seq, (vcomb_length n b (proj2 Hb)). reflexivity.
  - intros l Hl. rewrite length_map, length_seq in Hl.
    rewrite (nth_map_seq (fun j => dot ra (column j b))) by exact Hl.
    symmetry. apply nth_vcomb; [apply Hb | exact Hl].
Qed.

Lemma product_rectangular (n : nat) (a b : ndarray) :
  rectangular n n a -> rectangular n n b ->
  rectangular n n (map (fun ra => vcomb n ra b) a).
Proof.
  intros [Hl _] [_ Hb]. split.
  - rewrite length_map. exact Hl.
  - rewrite Forall_map. apply Forall_forall. intros ra _.
    apply vcomb_length. exact Hb.
Qed.

Lemma product_row (n : nat) (a b : ndarray) (i : nat) :
  (i < length a)%nat ->
  nth i (map (fun ra => vcomb n ra b) a) [] = vcomb n (nth i a []) b.
Proof.
  intros Hi.
  rewrite (nth_indep _ [] ((fun ra => vcomb n ra b) [])) by (rewrite length_map; exact Hi).
  apply (map_nth (fun ra => vcomb n ra b)).
Qed.

(** A product of three square arrays whose last factor is symmetric, as
    the notebook writes it, [X.dot(Y).dot(Z)]: entry [(i, j)] is
    [x_i . (Y z_j)], with the rows [x_i] of [X] and [z_j] of [Z]. *)
Lemma triple_product (n : nat) (X Y Z : ndarray) :
  rectangular n n X -> rectangular n n Y -> rectangular n n Z -> symmetric Z ->
  exists XY P,
    np_dot X Y = Ok XY /\ np_dot XY Z = Ok P
    /\ rectangular n n P
    /\ forall i j, (i < n)%nat -> (j < n)%nat ->
         item P i j = dot (nth i X []) (mat_vec Y (nth j Z [])).
Proof.
  intros HX HY HZ Hsym.
  pose proof (product_rectangular n X Y HX HY) as HXY.
  eexists. eexists. split; [apply (np_dot_rows n X Y HX HY)|].
  split; [apply (np_dot_rows n _ Z HXY HZ)|].
  split; [apply product_rectangular; assumption|].
  intros i j Hi Hj. unfold item.
  rewrite product_row by (rewrite (proj1 HXY); exact Hi).
  rewrite (nth_vcomb n Z j (proj2 HZ) Hj).
  rewrite (column_symmetric n Z j HZ Hsym Hj).
  rewrite product_row by (rewrite (proj1 HX); exact Hi).
  rewrite (dot_vcomb_l n Y _ (proj2 HY)). reflexivity.
Qed.

Lemma nth_mat_vec (Y : ndarray) (u : vector) (l : nat) :
  (l < length Y)%nat -> nth l (mat_vec Y u) 0 = dot (nth l Y []) u.
Proof.
  intros Hl. unfold mat_vec.
  rewrite (nth_indep (map (fun row => dot row u) Y) 0 (dot [] u))
    by (rewrite length_map; exact Hl).
  apply (map_nth (fun row => dot row u)).
Qed.

(** The combination of the rows of a symmetric array is its product with
    the coefficients. *)
Lemma vcomb_symmetric (n : nat) (Y : ndarray) (u : vector) :
  rectangular n n Y -> symmetric Y -> vcomb n u Y = mat_vec Y u.
Proof.
  intros HY Hsym. apply (nth_ext _ _ 0 0).
  - rewrite (vcomb_length n Y (proj2 HY)). unfold mat_vec. rewrite length_map.
    symmetry. apply HY.
  - intros l Hl. rewrite (vcomb_length n Y (proj2 HY)) in Hl.
    rewrite (nth_vcomb n Y l (proj2 HY) Hl).
    rewrite (column_symmetric n Y l HY Hsym Hl).
    rewrite nth_mat_vec by (rewrite (proj1 HY); exact Hl). apply dot_comm.
Qed.

Lemma symmetric_form (n : nat) (Y : ndarray) (u v : vector) :
  rectangular n n Y -> symmetric Y ->
  dot u (mat_vec Y v) = dot v (mat_vec Y u).
Proof.
  intros HY Hsym. unfold mat_vec at 1.
  rewrite <- (dot_vcomb_l n Y v (proj2 HY)).
  rewrite (vcomb_symmetric n Y u HY Hsym). apply dot_comm.
Qed.

Lemma dot_opp_l (u v : vector) : dot (map Qcopp u) v = - dot u v.
Proof.
  revert v; induction u as [|a u IH]; intros [|b v]; simpl; try ring.
  rewrite IH. ring.
Qed.

Lemma vcomb_antisymmetric (n : nat) (M : ndarray) (u : vector) :
  rectangular n n M -> antisymmetric M ->
  vcomb n u M = map Qcopp (mat_vec M u).
Proof.
  intros HM Hanti. apply (nth_ext _ _ 0 (- 0)).
  - rewrite (vcomb_length n M (proj2 HM)). unfold mat_vec. rewrite !length_map.
    symmetry. apply HM.
  - intros l Hl. rewrite (vcomb_length n M (proj2 HM)) in Hl.
    rewrite (nth_vcomb n M l (proj2 HM) Hl).
    rewrite (column_antisymmetric n M l HM Hanti Hl).
    rewrite (map_nth Qcopp).
    rewrite nth_mat_vec by (rewrite (proj1 HM); exact Hl).
    rewrite dot_comm, dot_opp_l. reflexivity.
Qed.

Lemma antisymmetric_form (n : nat) (M : ndarray) (u v : vector) :
  rectangular n n M -> antisymmetric M ->
  dot u (mat_vec M v) = - dot v (mat_vec M u).
Proof.
  intros HM Hanti. unfold mat_vec at 1.
  rewrite <- (dot_vcomb_l n M v (proj2 HM)).
  rewrite (vcomb_antisymmetric n M u HM Hanti).
  rewrite dot_opp_l, dot_comm. reflexivity.
Qed.

Lemma nth_vsub (r s : vector) (q : nat) :
  length r = length s -> nth q (vsub r s) 0 = nth q r 0 - nth q s 0.
Proof.
  revert s q; induction r as [|a r IH]; intros [|b s] q H; simpl in *;
    try discriminate.
  - destruct q; ring.
  - destruct q as [|q]; [reflexivity|]. apply IH. lia.
Qed.

Lemma item_msub (a b : ndarray) (p q : nat) :
  same_shapeb a b = true ->
  item (msub a b) p q = item a p q - item b p q.
Proof.
  revert b p; induction a as [|r a IH]; intros [|s b] p H; simpl in *;
    try discriminate.
  - rewrite item_nil. ring.
  - apply andb_true_iff in H. destruct H as [Hrs Hab]. apply Nat.eqb_eq in Hrs.
    destruct p as [|p].
    + unfold item; simpl. apply nth_vsub. exact Hrs.
    + apply (IH b p Hab).
Qed.

Lemma vsub_length (r s : vector) :
  length r = length s -> length (vsub r s) = length r.
Proof.
  revert s; induction r as [|a r IH]; intros [|b s] H; simpl in *;
    try discriminate; try reflexivity.
  f_equal. apply IH. lia.
Qed.

Lemma msub_rectangular (n m : nat) (a b : ndarray) :
  rectangular n m a -> rectangular n m b -> rectangular n m (msub a b).
Proof.
  intros [Hla Ha] [Hlb Hb]. subst n. revert b Hlb Hb.
  induction Ha as [|r a Hr Ha IH]; intros [|s b] Hlb Hb; simpl in *;
    try discriminate.
  - split; [reflexivity | constructor].
  - inversion Hb as [|? ? Hs Hb']; subst.
    destruct (IH b ltac:(lia) Hb') as [Hl Hrows]. split.
    + simpl. rewrite Hl. reflexivity.
    + constructor; [rewrite vsub_length; congruence | exact Hrows].
Qed.

Lemma rectangular_same_shape (n m : nat) (a b : ndarray) :
  rectangular n m a -> rectangular n m b -> same_shapeb a b = true.
Proof.
  intros [Hla Ha] [Hlb Hb]. subst n. revert b Hlb Hb.
  induction Ha as [|r a Hr Ha IH]; intros [|s b] Hlb Hb; simpl in *;
    try discriminate; try reflexivity.
  inversion Hb as [|? ? Hs Hb']; subst.
  rewrite Hs, Nat.eqb_refl. apply IH; [lia | exact Hb'].
Qed.

(** ** The orthogonalised Fock matrix and the residual *)

Lemma symmetric_from_range (n : nat) (P : ndarray) :
  rectangular n n P ->
  (forall i j, (i < n)%nat -> (j < n)%nat -> item P i j = item P j i) ->
  symmetric P.
Proof.
  intros HP H i j.
  destruct (Nat.lt_ge_cases i n) as [Hi|Hi];
    [|rewrite !(item_outside n n) by (auto; lia); reflexivity].
  destruct (Nat.lt_ge_cases j n) as [Hj|Hj];
    [|rewrite !(item_outside n n) by (auto; lia); reflexivity].
  apply H; assumption.
Qed.

Lemma antisymmetric_from_range (n : nat) (P : ndarray) :
  rectangular n n P ->
  (forall i j, (i < n)%nat -> (j < n)%nat -> item P i j = - item P j i) ->
  antisymmetric P.
Proof.
  intros HP H i j.
  destruct (Nat.lt_ge_cases i n) as [Hi|Hi];
    [|rewrite !(item_outside n n) by (auto; lia); ring].
  destruct (Nat.lt_ge_cases j n) as [Hj|Hj];
    [|rewrite !(item_outside n n) by (auto; lia); ring].
  apply H; assumption.
Qed.

(** X12.  For square symmetric [A] and [F] of one size, [A.dot(F).dot(A)],
    the matrix handed to [np.linalg.eigh], is computed without an exception
    and has their shape; in exact arithmetic it is symmetric. *)
Theorem orthogonalized_fock_symmetric (n : nat) (A F : ndarray) :
  rectangular n n A -> rectangular n n F -> symmetric A -> symmetric F ->
  exists F_p,
    orthogonalize A F = Ok F_p /\ rectangular n n F_p /\ symmetric F_p.
Proof.
  intros HA HF HsA HsF.
  destruct (triple_product n A F A HA HF HA HsA) as (AF & P & H1 & H2 & HP & Hitems).
  exists P. unfold orthogonalize. rewrite H1. simpl. split; [exact H2|].
  split; [exact HP|].
  apply (symmetric_from_range n P HP). intros i j Hi Hj.
  rewrite !Hitems by assumption. apply (symmetric_form n F _ _ HF HsF).
Qed.

Lemma orthogonalized_fock_symmetric_witness :
  rectangular 2 2 Toy.D0 /\ symmetric Toy.D0
  /\ exists F_p,
       orthogonalize Toy.D0 Toy.D0 = Ok F_p /\ rectangular 2 2 F_p /\ symmetric F_p.
Proof.
  assert (HC : rectangular 2 2 Toy.D0).
  { split; [reflexivity|]. repeat constructor. }
  assert (Hs : symmetric Toy.D0).
  { apply (symmetric_from_range 2 _ HC). intros i j Hi Hj.
    destruct i as [|[|i]], j as [|[|j]]; try lia; reflexivity. }
  split; [exact HC|]. split; [exact Hs|].
  exact (orthogonalized_fock_symmetric 2 Toy.D0 Toy.D0 HC HC Hs Hs).
Defined.

Lemma Qc_eq_opp_zero (x : Qc) : x = - x -> x = 0.
Proof.
  intros H.
  assert (H2 : x * (1 + 1) = 0).
  { transitivity (x + x); [ring | rewrite H at 1; ring]. }
  destruct (Qcmult_integral _ _ H2) as [Hx|H0]; [exact Hx|].
  apply (f_equal this) in H0. vm_compute in H0. discriminate H0.
Qed.

(** X13.  For square symmetric [A], [S], [F], [D] of one size the residual
    [A.dot(F.dot(D).dot(S) - S.dot(D).dot(F)).dot(A)] is computed without
    an exception and has their shape; in exact arithmetic it is
    antisymmetric, and its diagonal is zero. *)
Theorem diis_residual_antisymmetric (n : nat) (A S F D : ndarray) :
  rectangular n n A -> rectangular n n S ->
  rectangular n n F -> rectangular n n D ->
  symmetric A -> symmetric S -> symmetric F -> symmetric D ->
  exists r,
    diis_residual A S F D = Ok r
    /\ rectangular n n r
    /\ antisymmetric r
    /\ forall i, item r i i = 0.
Proof.
  intros HA HS HF HD HsA HsS HsF HsD.
  destruct (triple_product n F D S HF HD HS HsS)
    as (FD & FDS & H1 & H2 & HFDS & Hfds).
  destruct (triple_product n S D F HS HD HF HsF)
    as (SD & SDF & H3 & H4 & HSDF & Hsdf).
  pose proof (msub_rectangular n n _ _ HFDS HSDF) as HM.
  pose proof (rectangular_same_shape n n _ _ HFDS HSDF) as Hshape.
  assert (HaM : antisymmetric (msub FDS SDF)).
  { apply (antisymmetric_from_range n _ HM). intros i j Hi Hj.
    rewrite !item_msub by exact Hshape.
    rewrite (Hfds i j Hi Hj), (Hsdf i j Hi Hj), (Hfds j i Hj Hi), (Hsdf j i Hj Hi).
    rewrite (symmetric_form n D (nth j S []) (nth i F []) HD HsD).
    rewrite (symmetric_form n D (nth j F []) (nth i S []) HD HsD).
    ring. }
  destruct (triple_product n A (msub FDS SDF) A HA HM HA HsA)
    as (AM & r & H5 & H6 & Hr & Hitems).
  exists r. unfold diis_residual, np_sub.
  rewrite H1; simpl. rewrite H2; simpl. rewrite H3; simpl. rewrite H4; simpl.
  rewrite Hshape; simpl. rewrite H5; simpl.
  split; [exact H6|]. split; [exact Hr|].
  assert (Har : antisymmetric r).
  { apply (antisymmetric_from_range n r Hr). intros i j Hi Hj.
    rewrite !Hitems by assumption.
    apply (antisymmetric_form n _ _ _ HM HaM). }
  split; [exact Har|].
  intros i. apply Qc_eq_opp_zero. apply Har.
Qed.

Lemma rectangular_2x2 (a b c d : Qc) : rectangular 2 2 [[a; b]; [c; d]].
Proof. split; [reflexivity | repeat constructor]. Qed.

Lemma symmetric_2x2 (a b d : Qc) : symmetric [[a; b]; [b; d]].
Proof.
  apply (symmetric_from_range 2 _ (rectangular_2x2 a b b d)). intros i j Hi Hj.
  destruct i as [|[|i]], j as [|[|j]]; try lia; reflexivity.
Qed.

Lemma diis_residual_antisymmetric_witness :
  rectangular 2 2 Matrices.I2 /\ rectangular 2 2 Matrices.F
  /\ rectangular 2 2 Matrices.D
  /\ symmetric Matrices.I2 /\ symmetric Matrices.F /\ symmetric Matrices.D
  /\ exists r,
       diis_residual Matrices.I2 Matrices.I2 Matrices.F Matrices.D = Ok r
       /\ antisymmetric r
       /\ map (map this) r = [[0; 1]; [-1; 0]]%Q.
Proof.
  pose proof (rectangular_2x2 1 0 0 1) as HI.
  pose proof (rectangular_2x2 0 1 1 0) as HF.
  pose proof (rectangular_2x2 1 0 0 (Q2Qc 2)) as HD.
  pose proof (symmetric_2x2 1 0 1) as HsI.
  pose proof (symmetric_2x2 0 1 0) as HsF.
  pose proof (symmetric_2x2 1 0 (Q2Qc 2)) as HsD.
  split; [exact HI|]. split; [exact HF|]. split; [exact HD|].
  split; [exact HsI|]. split; [exact HsF|]. split; [exact HsD|].
  destruct (diis_residual_antisymmetric 2 Matrices.I2 Matrices.I2 Matrices.F
              Matrices.D HI HI HF HD HsI HsI HsF HsD) as (r & Hr & _ & Hanti & _).
  exists r. split; [exact Hr|]. split; [exact Hanti|].
  assert (Hval : exists r', diis_residual Matrices.I2 Matrices.I2 Matrices.F Matrices.D
                            = Ok r' /\ map (map this) r' = [[0; 1]; [-1; 0]]%Q).
  { eexists. split; vm_compute; reflexivity. }
  destruct Hval as (r' & Hr' & Hv). rewrite Hr in Hr'. injection Hr' as ->. exact Hv.
Defined.

Lemma item_zero_matrix (n k i j : nat) : item (repeat (zeros n) k) i j = 0.
Proof.
  unfold item.
  destruct (Nat.lt_ge_cases i k) as [Hi|Hi].
  - rewrite nth_repeat_lt by exact Hi. unfold zeros.
    destruct (Nat.lt_ge_cases j n) as [Hj|Hj].
    + apply nth_repeat_lt. exact Hj.
    + apply nth_overflow. rewrite repeat_length. exact Hj.
  - rewrite (nth_overflow (repeat (zeros n) k)) by (rewrite repeat_length; exact Hi).
    destruct j; reflexivity.
Qed.

Lemma zero_matrix_rectangular (n k : nat) : rectangular k n (repeat (zeros n) k).
Proof.
  split; [apply repeat_length|].
  apply Forall_forall. intros row Hin. apply repeat_spec in Hin. subst row.
  apply zeros_length.
Qed.

Lemma mat_vec_zero_matrix (n k : nat) (v : vector) :
  mat_vec (repeat (zeros n) k) v = zeros k.
Proof.
  unfold mat_vec, zeros. induction k as [|k IH]; simpl; [reflexivity|].
  f_equal; [|exact IH]. rewrite dot_comm. apply dot_zeros_r.
Qed.

(** X14.  When [F.dot(D).dot(S)] and [S.dot(D).dot(F)] come out equal, the
    residual is the zero array. *)
Theorem diis_residual_vanishes (n : nat) (A S F D P : ndarray) :
  rectangular n n A -> rectangular n n S ->
  rectangular n n F -> rectangular n n D -> symmetric A ->
  (FD <- np_dot F D ;; np_dot FD S) = Ok P ->
  (SD <- np_dot S D ;; np_dot SD F) = Ok P ->
  diis_residual A S F D = Ok (repeat (zeros n) n).
Proof.
  intros HA HS HF HD HsA H1 H2.
  pose proof (product_rectangular n F D HF HD) as HFD.
  pose proof (product_rectangular n S D HS HD) as HSD.
  rewrite (np_dot_rows n F D HF HD) in H1. simpl in H1.
  rewrite (np_dot_rows n S D HS HD) in H2. simpl in H2.
  assert (HP : rectangular n n P).
  { rewrite (np_dot_rows n _ S HFD HS) in H1. injection H1 as <-.
    apply product_rectangular; assumption. }
  assert (HM : msub P P = repeat (zeros n) n).
  { apply (rectangular_ext n n).
    - apply msub_rectangular; exact HP.
    - apply zero_matrix_rectangular.
    - intros i j _ _.
      rewrite item_msub by (apply same_shapeb_refl).
      rewrite item_zero_matrix. ring. }
  destruct (triple_product n A (repeat (zeros n) n) A HA
              (zero_matrix_rectangular n n) HA HsA)
    as (AM & r & H5 & H6 & Hr & Hitems).
  unfold diis_residual, np_sub.
  rewrite (np_dot_rows n F D HF HD); simpl. rewrite H1; simpl.
  rewrite (np_dot_rows n S D HS HD); simpl. rewrite H2; simpl.
  rewrite same_shapeb_refl; simpl. rewrite HM, H5; simpl. rewrite H6. f_equal.
  apply (rectangular_ext n n _ _ Hr (zero_matrix_rectangular n n)).
  intros i j Hi Hj. rewrite (Hitems i j Hi Hj), item_zero_matrix.
  rewrite mat_vec_zero_matrix. apply dot_zeros_r.
Qed.

Lemma diis_residual_vanishes_witness :
  rectangular 2 2 Matrices.D /\ symmetric Matrices.D
  /\ (exists P,
        (FD <- np_dot Matrices.D Matrices.D ;; np_dot FD Matrices.D) = Ok P)
  /\ diis_residual Matrices.D Matrices.D Matrices.D Matrices.D
     = Ok (repeat (zeros 2) 2).
Proof.
  pose proof (rectangular_2x2 1 0 0 (Q2Qc 2)) as HD.
  pose proof (symmetric_2x2 1 0 (Q2Qc 2)) as HsD.
  destruct (triple_product 2 Matrices.D Matrices.D Matrices.D HD HD HD HsD)
    as (DD & P & H1 & H2 & _ & _).
  assert (HP : (FD <- np_dot Matrices.D Matrices.D ;; np_dot FD Matrices.D) = Ok P).
  { rewrite H1. simpl. exact H2. }
  split; [exact HD|]. split; [exact HsD|]. split; [exists P; exact HP|].
  exact (diis_residual_vanishes 2 Matrices.D Matrices.D Matrices.D Matrices.D P
           HD HD HD HD HsD HP HP).
Defined.

(** ** The extrapolated matrix *)

Lemma weighted_sum_symmetric (p q : nat) :
  forall (c : vector) (trials : list ndarray),
  Forall symmetric trials ->
  weighted_sum c trials p q = weighted_sum c trials q p.
Proof.
  induction c as [|cx c IH]; intros [|Fx trials] Hall; simpl; try reflexivity.
  inversion Hall as [|? ? Hs Hrest]; subst.
  rewrite (Hs p q), (IH trials Hrest). reflexivity.
Qed.

(** X15.  Extrapolation keeps the symmetry that [np.linalg.eigh] relies
    on: when every trial of the history is symmetric, so is the matrix the
    step returns. *)
Theorem diis_keeps_symmetry (junk : nat -> nat -> Qc)
  (trials resid : list ndarray) (F F' : ndarray) :
  Forall symmetric trials ->
  diis_extrapolate junk trials resid F = Ok F' ->
  symmetric F'.
Proof.
  intros Hall Hrun.
  destruct (diis_extrapolate_Ok _ _ _ _ _ Hrun) as (coeff & _ & _ & _ & HF').
  destruct (diis_fock_Ok _ _ _ _ HF') as (_ & _ & Hitems).
  intros p q. rewrite !Hitems. apply weighted_sum_symmetric. exact Hall.
Qed.

Lemma diis_keeps_symmetry_witness :
  Forall symmetric [Matrices.F; Matrices.D]
  /\ exists F',
       diis_extrapolate (fun _ _ => 0) [Matrices.F; Matrices.D]
         [Matrices.F; Matrices.D] Matrices.D = Ok F'
       /\ symmetric F'.
Proof.
  assert (Hall : Forall symmetric [Matrices.F; Matrices.D]).
  { constructor; [apply symmetric_2x2|].
    constructor; [apply symmetric_2x2 | constructor]. }
  split; [exact Hall|].
  assert (Hrun : exists F',
            diis_extrapolate (fun _ _ => 0) [Matrices.F; Matrices.D]
              [Matrices.F; Matrices.D] Matrices.D = Ok F').
  { eexists. vm_compute. reflexivity. }
  destruct Hrun as [F' HF']. exists F'. split; [exact HF'|].
  exact (diis_keeps_symmetry _ _ _ _ F' Hall HF').
Defined.
